(** * ChatCatcher: the trigger/response engine of [bot.js]

    A shallow embedding of the text normalizer, the quoted-string
    extractor, the command dispatch of the [messageCreate] handler, the
    add/remove/edit operations on the [responses] collection and the
    matcher [checkMessages], followed by the properties the
    specification states about them.

    JavaScript strings are sequences of UTF-16 code units; they are
    modelled as lists of [N].  The collection is the list of its
    documents in natural (insertion) order.  The handler runs in a small
    state-and-exception monad over a [World] holding the collection, the
    clock, the chat channel and the console. *)

From Stdlib Require Import List NArith Bool Arith Lia String Ascii.
Import ListNotations.

Local Open Scope N_scope.
Local Open Scope list_scope.

(** ** Strings *)

Module JS.

Definition jsstring := list N.

(** An ASCII literal of the source, as code units. *)
Definition lit (s : string) : jsstring :=
  List.map N_of_ascii (list_ascii_of_string s).

Definition dquote : N := 34.     (* the plain double quote *)
Definition squote : N := 39.     (* the apostrophe *)
Definition newline : N := 10.    (* the escape [\n] *)
Definition arrow : N := 8594.    (* U+2192, used in the confirmations *)

Fixpoint streq (a b : jsstring) : bool :=
  match a, b with
  | [], [] => true
  | x :: a', y :: b' => N.eqb x y && streq a' b'
  | _, _ => false
  end.

(** [s.startsWith(p)] *)
Fixpoint startsWith (s p : jsstring) {struct p} : bool :=
  match p, s with
  | [], _ => true
  | c :: p', d :: s' => N.eqb d c && startsWith s' p'
  | _ :: _, [] => false
  end.

(** [s.includes(t)]: [t] occurs in [s] at some position. *)
Fixpoint includes (s t : jsstring) : bool :=
  startsWith s t ||
  match s with
  | [] => false
  | _ :: s' => includes s' t
  end.

(** [parts.join(sep)] *)
Fixpoint join (sep : jsstring) (parts : list jsstring) : jsstring :=
  match parts with
  | [] => []
  | [p] => p
  | p :: ps => p ++ sep ++ join sep ps
  end.

(** [s.replace(/[...]/g, r)] for a pattern that matches one code unit:
    every code unit satisfying [p] is replaced by [r]. *)
Definition replaceAll (p : N -> bool) (r : jsstring) (s : jsstring) : jsstring :=
  flat_map (fun c => if p c then r else [c]) s.

(** White space and line terminators of ECMAScript, the characters
    [String.prototype.trim] strips. *)
Definition isWhiteSpace (c : N) : bool :=
  ((9 <=? c) && (c <=? 13)) || (c =? 32) || (c =? 160) || (c =? 5760)
  || ((8192 <=? c) && (c <=? 8202)) || (c =? 8232) || (c =? 8233)
  || (c =? 8239) || (c =? 8287) || (c =? 12288) || (c =? 65279).

Fixpoint trimStart (s : jsstring) : jsstring :=
  match s with
  | c :: s' => if isWhiteSpace c then trimStart s' else s
  | [] => []
  end.

Definition trimEnd (s : jsstring) : jsstring := rev (trimStart (rev s)).

Definition trim (s : jsstring) : jsstring := trimEnd (trimStart s).

Definition isAscii (c : N) : bool := c <? 128.

End JS.
Import JS.

(** ** Text normalizer and quoted-string extractor *)

Definition isSmartSingle (c : N) : bool := (c =? 8216) || (c =? 8217).  (* U+2018, U+2019 *)
Definition isSmartDouble (c : N) : bool := (c =? 8220) || (c =? 8221).  (* U+201C, U+201D *)
Definition isDash (c : N) : bool := (c =? 8211) || (c =? 8212).         (* U+2013, U+2014 *)

Definition normalizeText (text : jsstring) : jsstring :=
  trim
    (replaceAll isDash (lit "--")
       (replaceAll isSmartDouble [dquote]
          (replaceAll isSmartSingle [squote] text))).

(** The character class of [quotesRegex].  The source lists the double
    quote three times and the apostrophe once; no other character is in
    the class. *)
Definition isQuote (c : N) : bool :=
  (c =? dquote) || (c =? squote) || (c =? dquote) || (c =? dquote).

(** The longest prefix of code units satisfying [p], and what follows. *)
Fixpoint span (p : N -> bool) (s : jsstring) : jsstring * jsstring :=
  match s with
  | c :: s' =>
      if p c then let (run, rest) := span p s' in (c :: run, rest)
      else ([], s)
  | [] => ([], [])
  end.

(** One attempt of [quotesRegex] anchored at the start of [s]: an opening
    quote, the greedy run [[^...]+] (group 1), a closing quote.  The result
    is group 1 and the text after the match.  The run is maximal: a shorter
    run would be followed by a character outside the class, so the
    engine's backtracking finds nothing more. *)
Definition match_at (s : jsstring) : option (jsstring * jsstring) :=
  match s with
  | q :: s1 =>
      if isQuote q then
        match span (fun c => negb (isQuote c)) s1 with
        | ((_ :: _) as group1, q' :: rest) =>
            if isQuote q' then Some (group1, rest) else None
        | _ => None
        end
      else None
  | [] => None
  end.

(** [text.matchAll(quotesRegex)], keeping group 1 of every match: the
    search resumes after a match, and one code unit further after a
    failed attempt.  [fuel] bounds the number of attempts. *)
Fixpoint matchAll_from (fuel : nat) (s : jsstring) : list jsstring :=
  match fuel with
  | O => []
  | S fuel' =>
      match match_at s with
      | Some (group1, rest) => group1 :: matchAll_from fuel' rest
      | None =>
          match s with
          | [] => []
          | _ :: s' => matchAll_from fuel' s'
          end
      end
  end.

Definition matchAll (s : jsstring) : list jsstring :=
  matchAll_from (S (List.length s)) s.

Definition extractQuotedStrings (text : jsstring) : list jsstring :=
  List.map normalizeText (matchAll text).

(** ** Documents and the collection *)

Inductive ResponseType := text | image | file.

(** [`${type}`] *)
Definition typeName (t : ResponseType) : jsstring :=
  match t with
  | text => lit "text"
  | image => lit "image"
  | file => lit "file"
  end.

Record Doc := mkDoc {
  trigger : jsstring;
  response : jsstring;
  type : ResponseType;
  createdAt : N;
  updatedAt : option N
}.

(** The operations of the database driver the bot calls, on a collection
    kept as the list of its documents in natural order. *)
Module Mongo.

Definition Collection := list Doc.

(** [findOne({ trigger: t })] *)
Definition findOne (t : jsstring) (c : Collection) : option Doc :=
  find (fun d => streq (trigger d) t) c.

(** [insertOne(d)] *)
Definition insertOne (d : Doc) (c : Collection) : Collection := c ++ [d].

(** [deleteOne({ trigger: t })]: the collection without the first
    document whose trigger is [t], and [deletedCount]. *)
Fixpoint deleteOne (t : jsstring) (c : Collection) : Collection * N :=
  match c with
  | [] => ([], 0)
  | d :: c' =>
      if streq (trigger d) t then (c', 1)
      else let (c'', n) := deleteOne t c' in (d :: c'', n)
  end.

(** [updateOne({ trigger: t }, { $set: ... })]: [set] applied to the
    first document whose trigger is [t]. *)
Fixpoint updateOne (t : jsstring) (set : Doc -> Doc) (c : Collection) : Collection :=
  match c with
  | [] => []
  | d :: c' =>
      if streq (trigger d) t then set d :: c'
      else d :: updateOne t set c'
  end.

End Mongo.

(** ** Messages, the channel and the world *)

Record Attachment := mkAttachment {
  url : jsstring;
  contentType : option jsstring
}.

Record Message := mkMessage {
  author_bot : bool;
  content : jsstring;
  attachments : list Attachment
}.

(** What [message.channel.send] is given: a text, or [{ files: [...] }]. *)
Inductive Payload :=
| Text (s : jsstring)
| Files (urls : list jsstring).

(** One call of [message.channel.send] and how it ended. *)
Inductive Delivery :=
| Delivered (p : Payload)
| Failed (p : Payload) (err : jsstring).

Definition payload (d : Delivery) : Payload :=
  match d with
  | Delivered p => p
  | Failed p _ => p
  end.

(** The errors the handler sees: the three [new Error(...)] of the
    commands, and a rejected [send] with the transport's message. *)
Inductive Error :=
| DuplicateTrigger
| InvalidFormat
| TriggerNotFound
| DeliveryError (msg : jsstring).

(** [err.message] *)
Definition errorMessage (e : Error) : jsstring :=
  match e with
  | DuplicateTrigger => lit "Trigger already exists"
  | InvalidFormat => lit "Invalid format"
  | TriggerNotFound => lit "Trigger not found"
  | DeliveryError msg => msg
  end.

Inductive LogEntry :=
| Received (content : jsstring)
| FailedToSend (trigger : jsstring) (err : Error).

(** [network] scripts the transport: the outcome of each coming [send],
    [Some msg] for a rejection with that message; once the script is
    exhausted every [send] is delivered. *)
Record World := mkWorld {
  responses : Mongo.Collection;
  clock : N;
  network : list (option jsstring);
  channel : list Delivery;
  console : list LogEntry
}.

(** ** Computations: state and exceptions *)

Inductive Outcome (A : Type) :=
| Return (a : A)
| Throw (e : Error).
Arguments Return {A} a.
Arguments Throw {A} e.

Definition M (A : Type) := World -> Outcome A * World.

Definition ret {A} (a : A) : M A := fun w => (Return a, w).

Definition bind {A B} (c : M A) (k : A -> M B) : M B :=
  fun w =>
    match c w with
    | (Return a, w') => k a w'
    | (Throw e, w') => (Throw e, w')
    end.

Definition throw {A} (e : Error) : M A := fun w => (Throw e, w).

(** [try { c } catch (err) { h err }]: what [c] did before it threw stays
    done. *)
Definition try_catch {A} (c : M A) (h : Error -> M A) : M A :=
  fun w =>
    match c w with
    | (Return a, w') => (Return a, w')
    | (Throw e, w') => h e w'
    end.

Declare Scope bot_scope.
Delimit Scope bot_scope with bot.
Notation "x <- c ;; k" := (bind c (fun x => k))
  (at level 61, c at next level, right associativity) : bot_scope.
Notation "c ;; k" := (bind c (fun _ => k))
  (at level 61, right associativity) : bot_scope.
Local Open Scope bot_scope.

(** [for (const x of l) { body x }] *)
Fixpoint forEach {A} (l : list A) (body : A -> M unit) : M unit :=
  match l with
  | [] => ret tt
  | x :: l' => body x ;; forEach l' body
  end.

Definition withResponses (c : Mongo.Collection) (w : World) : World :=
  mkWorld c (clock w) (network w) (channel w) (console w).

(** [await message.channel.send(p)] *)
Definition send (p : Payload) : M unit :=
  fun w =>
    match network w with
    | Some err :: net =>
        (Throw (DeliveryError err),
         mkWorld (responses w) (clock w) net (channel w ++ [Failed p err]) (console w))
    | None :: net =>
        (Return tt,
         mkWorld (responses w) (clock w) net (channel w ++ [Delivered p]) (console w))
    | [] =>
        (Return tt,
         mkWorld (responses w) (clock w) [] (channel w ++ [Delivered p]) (console w))
    end.

(** [console.log] and [console.error] *)
Definition log (e : LogEntry) : M unit :=
  fun w =>
    (Return tt,
     mkWorld (responses w) (clock w) (network w) (channel w) (console w ++ [e])).

(** [new Date()] *)
Definition newDate : M N := fun w => (Return (clock w), w).

Definition findOne (t : jsstring) : M (option Doc) :=
  fun w => (Return (Mongo.findOne t (responses w)), w).

Definition findAll : M (list Doc) :=
  fun w => (Return (responses w), w).

Definition insertOne (d : Doc) : M unit :=
  fun w => (Return tt, withResponses (Mongo.insertOne d (responses w)) w).

Definition deleteOne (t : jsstring) : M N :=
  fun w =>
    let (c, deletedCount) := Mongo.deleteOne t (responses w) in
    (Return deletedCount, withResponses c w).

Definition updateOne (t : jsstring) (set : Doc -> Doc) : M unit :=
  fun w => (Return tt, withResponses (Mongo.updateOne t set (responses w)) w).

(** ** The bot *)

(** The confirmations the commands return. *)
Definition added (trigger : jsstring) (type : ResponseType) : jsstring :=
  lit "Added: " ++ [dquote] ++ trigger ++ [dquote]
  ++ lit " " ++ [arrow] ++ lit " " ++ typeName type.

Definition updated (trigger : jsstring) (type : ResponseType) : jsstring :=
  lit "Updated: " ++ [dquote] ++ trigger ++ [dquote]
  ++ lit " " ++ [arrow] ++ lit " " ++ typeName type.

Definition removed (trigger : jsstring) : jsstring :=
  lit "Removed: " ++ [dquote] ++ trigger ++ [dquote].

Section Bot.

(** [String.prototype.toLowerCase] of the host, on code units. *)
Variable toLowerCase : jsstring -> jsstring.

(** [attachment.contentType?.startsWith("image/") ? "image" : "file"] *)
Definition attachmentType (attachment : Attachment) : ResponseType :=
  match contentType attachment with
  | Some ct => if startsWith ct (lit "image/") then image else file
  | None => file
  end.

(** The block shared by [addResponse] and [editResponse]: the response
    and its type, from the first attachment or from the second quoted
    string of the raw message text. *)
Definition newResponse (message : Message) : M (jsstring * ResponseType) :=
  match attachments message with
  | attachment :: _ => ret (url attachment, attachmentType attachment)
  | [] =>
      let quoted := extractQuotedStrings (content message) in
      if negb (Nat.eqb (List.length quoted) 2) then throw InvalidFormat
      else ret (nth 1 quoted [], text)
  end.

Definition addResponse (message : Message) (trigger : jsstring) : M jsstring :=
  existing <- findOne (toLowerCase trigger) ;;
  match existing with
  | Some _ => throw DuplicateTrigger
  | None =>
      r <- newResponse message ;;
      now <- newDate ;;
      insertOne (mkDoc (toLowerCase trigger) (fst r) (snd r) now None) ;;
      ret (added trigger (snd r))
  end.

Definition removeResponse (trigger : jsstring) : M jsstring :=
  deletedCount <- deleteOne (toLowerCase trigger) ;;
  if deletedCount =? 0 then throw TriggerNotFound
  else ret (removed trigger).

(** [{ $set: { response, type, updatedAt } }] *)
Definition setResponse (response : jsstring) (type : ResponseType) (now : N)
    (d : Doc) : Doc :=
  mkDoc (trigger d) response type (createdAt d) (Some now).

Definition editResponse (message : Message) (trigger : jsstring) : M jsstring :=
  existing <- findOne (toLowerCase trigger) ;;
  match existing with
  | None => throw TriggerNotFound
  | Some _ =>
      r <- newResponse message ;;
      now <- newDate ;;
      updateOne (toLowerCase trigger) (setResponse (fst r) (snd r) now) ;;
      ret (updated trigger (snd r))
  end.

Definition checkMessages (content : jsstring) : M (list Doc) :=
  let content := toLowerCase content in
  allResponses <- findAll ;;
  ret (filter (fun doc => includes content (trigger doc)) allResponses).

Definition helpText : jsstring :=
  lit "Commands available:" ++ [newline]
  ++ lit "**1. --add " ++ [dquote] ++ lit "message" ++ [dquote] ++ lit " "
  ++ [dquote] ++ lit "response" ++ [dquote]
  ++ lit "**Adds a new message and its response." ++ [newline]
  ++ lit "**2. --remove " ++ [dquote] ++ lit "message" ++ [dquote]
  ++ lit "**Removes a message and its response." ++ [newline]
  ++ lit "**3. --edit " ++ [dquote] ++ lit "message" ++ [dquote] ++ lit " "
  ++ [dquote] ++ lit "new_response" ++ [dquote]
  ++ lit "**Edits the response of an existing message." ++ [newline]
  ++ lit "**4. --list**List all registered responses." ++ [newline]
  ++ lit "**5. --help**Displays this help message.".

(** One line of [--list]. *)
Definition listLine (d : Doc) : jsstring :=
  lit "- " ++ [dquote] ++ trigger d ++ [dquote]
  ++ lit " (" ++ typeName (type d) ++ lit ")".

Definition listText (allResponses : list Doc) : jsstring :=
  lit "Responses:" ++ [newline] ++ join [newline] (List.map listLine allResponses).

(** [extractQuotedStrings(content)[0]] followed by
    [if (!trigger) throw new Error("Invalid format")]: [undefined] and the
    empty string are the two falsy values it can take. *)
Definition firstQuoted (content : jsstring) : M jsstring :=
  match extractQuotedStrings content with
  | [] => throw InvalidFormat
  | [] :: _ => throw InvalidFormat
  | trigger :: _ => ret trigger
  end.

(** The body of the loop over the matches: the [switch] on the type,
    inside its own [try]/[catch]. *)
Definition deliver (m : Doc) : M unit :=
  try_catch
    (match type m with
     | image | file => send (Files [response m])
     | text => send (Text (response m))
     end)
    (fun err => log (FailedToSend (trigger m) err)).

(** The [messageCreate] listener. *)
Definition onMessageCreate (message : Message) : M unit :=
  if author_bot message then ret tt
  else
    let content := normalizeText (content message) in
    log (Received content) ;;
    try_catch
      (if startsWith content (lit "--help") then
         send (Text helpText)
       else if startsWith content (lit "--list") then
         allResponses <- findAll ;;
         send (Text (listText allResponses))
       else if startsWith content (lit "--add") then
         trigger <- firstQuoted content ;;
         result <- addResponse message trigger ;;
         send (Text result)
       else if startsWith content (lit "--remove") then
         trigger <- firstQuoted content ;;
         result <- removeResponse trigger ;;
         send (Text result)
       else if startsWith content (lit "--edit") then
         trigger <- firstQuoted content ;;
         result <- editResponse message trigger ;;
         send (Text result)
       else
         matches <- checkMessages content ;;
         forEach matches deliver)
      (fun err => send (Text (lit "Error: " ++ errorMessage err))).

End Bot.

(** Lower-casing of the letters A to Z, which is what [toLowerCase] does
    on ASCII text; used to run the model on concrete messages. *)
Definition asciiLower (s : jsstring) : jsstring :=
  List.map (fun c => if (65 <=? c) && (c <=? 90) then c + 32 else c) s.

(** ** What the specification says, in its own words *)

(** [t] is a contiguous substring of [s]. *)
Definition Substring (t s : jsstring) : Prop :=
  exists pre post, s = pre ++ t ++ post.

(** [sel] is [all] restricted to the documents satisfying [P], each as
    often and in the order it occurs in [all]. *)
Inductive Selected (P : Doc -> Prop) : list Doc -> list Doc -> Prop :=
| Selected_nil : Selected P [] []
| Selected_keep d all sel : P d -> Selected P all sel -> Selected P (d :: all) (d :: sel)
| Selected_skip d all sel : ~ P d -> Selected P all sel -> Selected P (d :: all) sel.

(** The text starts, or ends, with a character that [trim] strips. *)
Definition startsWithSpace (s : jsstring) : bool :=
  match s with
  | c :: _ => isWhiteSpace c
  | [] => false
  end.

Definition endsWithSpace (s : jsstring) : bool := startsWithSpace (rev s).

(** The quote characters of the specification: plain or smart. *)
Definition isDelimiter (c : N) : bool :=
  (c =? dquote) || (c =? squote) || isSmartSingle c || isSmartDouble c.

(** The four smart quote characters. *)
Definition isSmartQuote (c : N) : bool := isSmartSingle c || isSmartDouble c.

(** [QuotedRunsBy delim s l]: reading [s] from left to right, [l] lists
    the normalized contents of the quoted runs, a quoted run being a
    non-empty stretch free of delimiters with a delimiter right before
    and right after it; a closing delimiter does not open the next run.
    Before the first run there is text without delimiters, then
    delimiters that open nothing because another delimiter follows. *)
Inductive QuotedRunsBy (delim : N -> bool) : jsstring -> list jsstring -> Prop :=
| QuotedRuns_none a b c :
    Forall (fun x => delim x = false) a ->
    Forall (fun x => delim x = true) b ->
    Forall (fun x => delim x = false) c ->
    QuotedRunsBy delim (a ++ b ++ c) []
| QuotedRuns_run a b q1 body q2 rest l :
    Forall (fun x => delim x = false) a ->
    Forall (fun x => delim x = true) b ->
    delim q1 = true ->
    body <> [] ->
    Forall (fun x => delim x = false) body ->
    delim q2 = true ->
    QuotedRunsBy delim rest l ->
    QuotedRunsBy delim (a ++ b ++ q1 :: body ++ q2 :: rest) (normalizeText body :: l).

(** The quoted runs for the delimiters of the specification. *)
Definition QuotedRuns := QuotedRunsBy isDelimiter.

(** ** Command classification *)

Inductive CommandKind :=
| CmdHelp | CmdList | CmdAdd | CmdRemove | CmdEdit | PlainText.

(** The chain of [startsWith] tests of the listener. *)
Definition classify (content : jsstring) : CommandKind :=
  if startsWith content (lit "--help") then CmdHelp
  else if startsWith content (lit "--list") then CmdList
  else if startsWith content (lit "--add") then CmdAdd
  else if startsWith content (lit "--remove") then CmdRemove
  else if startsWith content (lit "--edit") then CmdEdit
  else PlainText.

(** The classification in the words of the specification: the same
    prefixes, looked for in the lower-cased message. *)
Definition classify_lowercased (toLowerCase : jsstring -> jsstring)
    (content : jsstring) : CommandKind :=
  if startsWith (toLowerCase content) (lit "--help") then CmdHelp
  else if startsWith (toLowerCase content) (lit "--list") then CmdList
  else if startsWith (toLowerCase content) (lit "--add") then CmdAdd
  else if startsWith (toLowerCase content) (lit "--remove") then CmdRemove
  else if startsWith (toLowerCase content) (lit "--edit") then CmdEdit
  else PlainText.

(** What the listener does in each branch. *)
Definition runCommand (toLowerCase : jsstring -> jsstring) (message : Message)
    (content : jsstring) (kind : CommandKind) : M unit :=
  match kind with
  | CmdHelp => send (Text helpText)
  | CmdList =>
      allResponses <- findAll ;;
      send (Text (listText allResponses))
  | CmdAdd =>
      trigger <- firstQuoted content ;;
      result <- addResponse toLowerCase message trigger ;;
      send (Text result)
  | CmdRemove =>
      trigger <- firstQuoted content ;;
      result <- removeResponse toLowerCase trigger ;;
      send (Text result)
  | CmdEdit =>
      trigger <- firstQuoted content ;;
      result <- editResponse toLowerCase message trigger ;;
      send (Text result)
  | PlainText =>
      matches <- checkMessages toLowerCase content ;;
      forEach matches deliver
  end.

(** The outer [catch] of the listener. *)
Definition reportError (err : Error) : M unit :=
  send (Text (lit "Error: " ++ errorMessage err)).

(** Fixtures for running the model: a user message without attachment,
    a world with the given collection and a transport that delivers. *)
Definition userMessage (content : jsstring) : Message := mkMessage false content [].

Definition worldOf (c : Mongo.Collection) : World := mkWorld c 1000 [] [] [].

Definition quoted (s : string) : jsstring := [dquote] ++ lit s ++ [dquote].

(** ** Delivery of the matches *)

(** What the loop sends for a match. *)
Definition reply (m : Doc) : Payload :=
  match type m with
  | image | file => Files [response m]
  | text => Text (response m)
  end.

(** The calls of [send] for the payloads [ps], one after the other, on a
    transport scripted by [net]. *)
Fixpoint attempts (ps : list Payload) (net : list (option jsstring)) : list Delivery :=
  match ps, net with
  | [], _ => []
  | p :: ps', Some err :: net' => Failed p err :: attempts ps' net'
  | p :: ps', None :: net' => Delivered p :: attempts ps' net'
  | p :: ps', [] => Delivered p :: attempts ps' []
  end.

(** The console entries for the matches whose delivery is rejected. *)
Fixpoint failureLog (ms : list Doc) (net : list (option jsstring)) : list LogEntry :=
  match ms, net with
  | [], _ => []
  | m :: ms', Some err :: net' =>
      FailedToSend (trigger m) (DeliveryError err) :: failureLog ms' net'
  | _ :: ms', None :: net' => failureLog ms' net'
  | _ :: _, [] => []
  end.

(** The listener on a sequence of messages, one after the other. *)
Fixpoint onMessages (toLowerCase : jsstring -> jsstring) (messages : list Message)
    (w : World) : World :=
  match messages with
  | [] => w
  | message :: rest =>
      onMessages toLowerCase rest (snd (onMessageCreate toLowerCase message w))
  end.

(** ** What one message does to the collection *)

Inductive StoreStep (toLowerCase : jsstring -> jsstring) (c : Mongo.Collection)
  : Mongo.Collection -> Prop :=
| Step_same : StoreStep toLowerCase c c
| Step_insert t r ty now :
    t <> [] -> Mongo.findOne (toLowerCase t) c = None ->
    StoreStep toLowerCase c (c ++ [mkDoc (toLowerCase t) r ty now None])
| Step_delete t :
    StoreStep toLowerCase c (fst (Mongo.deleteOne (toLowerCase t) c))
| Step_update t r ty now :
    t <> [] ->
    StoreStep toLowerCase c (Mongo.updateOne (toLowerCase t) (setResponse r ty now) c).

(** ** Further vocabulary for the properties *)

(** The characters the normalizer replaces. *)
Definition isSpecial (c : N) : bool := isSmartQuote c || isDash c.

(** The transport rejects none of the coming deliveries. *)
Definition reliable (net : list (option jsstring)) : Prop :=
  Forall (fun o => o = None) net.

(** One call of [send] on a transport scripted by [net]. *)
Definition attempt (p : Payload) (net : list (option jsstring)) : Delivery :=
  match net with
  | Some err :: _ => Failed p err
  | _ => Delivered p
  end.

(** * Properties *)

(** ** Strings: the primitives meet their descriptions *)

Lemma streq_spec a b : streq a b = true <-> a = b.
Proof.
  revert b; induction a as [|x a IH]; intros [|y b]; simpl; split;
    try congruence; try reflexivity.
  - intros H. apply andb_true_iff in H as [Hxy Hab].
    apply N.eqb_eq in Hxy. apply IH in Hab. congruence.
  - intros H. injection H as -> ->. rewrite N.eqb_refl. simpl. now apply IH.
Qed.

Lemma streq_refl a : streq a a = true.
Proof. now apply streq_spec. Qed.

Lemma streq_false a b : streq a b = false <-> a <> b.
Proof.
  split.
  - intros H E. apply streq_spec in E. congruence.
  - intros H. destruct (streq a b) eqn:E; [|reflexivity].
    apply streq_spec in E. contradiction.
Qed.

Lemma startsWith_spec s p : startsWith s p = true <-> exists rest, s = p ++ rest.
Proof.
  revert s; induction p as [|c p IH]; intros s; simpl.
  - split; [intros _; now exists s | reflexivity].
  - destruct s as [|d s]; simpl.
    + split; [discriminate | intros [rest H]; discriminate].
    + rewrite andb_true_iff, N.eqb_eq, IH. split.
      * intros [-> [rest ->]]. now exists rest.
      * intros [rest H]. injection H as -> ->. split; [reflexivity | now exists rest].
Qed.

Lemma includes_spec s t : includes s t = true <-> Substring t s.
Proof.
  unfold Substring. induction s as [|c s IH].
  - simpl. rewrite orb_false_r, startsWith_spec. split.
    + intros [rest H]. now exists [], rest.
    + intros [pre [post H]]. destruct pre; [now exists post|discriminate].
  - cbn [includes]. rewrite orb_true_iff, startsWith_spec, IH. split.
    + intros [[rest H] | [pre [post H]]].
      * now exists [], rest.
      * exists (c :: pre), post. simpl. now rewrite H.
    + intros [[|x pre] [post H]].
      * left. now exists post.
      * right. injection H as -> ->. now exists pre, post.
Qed.

Lemma filter_Selected (f : Doc -> bool) (P : Doc -> Prop) :
  (forall d, f d = true <-> P d) ->
  forall all, Selected P all (filter f all).
Proof.
  intros Hf; induction all as [|d all IH]; simpl.
  - constructor.
  - destruct (f d) eqn:E.
    + apply Selected_keep; [now apply Hf | exact IH].
    + apply Selected_skip; [rewrite <- Hf; congruence | exact IH].
Qed.

(** ** The matcher *)

Lemma checkMessages_filter toLowerCase content w :
  checkMessages toLowerCase content w =
  (Return (filter (fun doc => includes (toLowerCase content) (trigger doc)) (responses w)),
   w).
Proof. reflexivity. Qed.

(** C1. For every message text and every collection, [checkMessages]
    leaves the world as it is and returns exactly the stored documents
    whose trigger is a contiguous substring of the lower-cased text: all
    of them, in the order of the collection, and none when no trigger
    occurs in the text. *)
Theorem checkMessages_exact (toLowerCase : jsstring -> jsstring)
    (content : jsstring) (w : World) :
  exists matches,
    checkMessages toLowerCase content w = (Return matches, w)
    /\ Selected (fun d => Substring (trigger d) (toLowerCase content))
         (responses w) matches
    /\ (forall d, In d matches <->
          In d (responses w) /\ Substring (trigger d) (toLowerCase content))
    /\ ((forall d, In d (responses w) ->
           ~ Substring (trigger d) (toLowerCase content)) <-> matches = []).
Proof.
  eexists. split; [apply checkMessages_filter|]. split; [|split].
  - apply filter_Selected. intros d. apply includes_spec.
  - intros d. rewrite filter_In, includes_spec. reflexivity.
  - split.
    + intros Hnone. induction (responses w) as [|d l IH]; [reflexivity|].
      simpl. destruct (includes _ _) eqn:E.
      * apply includes_spec in E. exfalso. apply (Hnone d); [now left | exact E].
      * apply IH. intros d' Hd'. apply Hnone. now right.
    + intros Hnil d Hd Hsub.
      assert (Hin : In d (filter (fun doc => includes (toLowerCase content) (trigger doc))
                             (responses w))).
      { apply filter_In. split; [exact Hd | now apply includes_spec]. }
      rewrite Hnil in Hin. exact Hin.
Qed.

(** ** The normalizer *)

Lemma replaceAll_none p r s :
  forallb (fun c => negb (p c)) s = true -> replaceAll p r s = s.
Proof.
  unfold replaceAll. induction s as [|c s IH]; simpl; [reflexivity|].
  intros H. apply andb_true_iff in H as [Hc Hs].
  apply negb_true_iff in Hc. rewrite Hc. simpl. now rewrite IH.
Qed.

Lemma forallb_weaken (f g : N -> bool) s :
  (forall c, f c = true -> g c = true) ->
  forallb f s = true -> forallb g s = true.
Proof.
  intros Hfg. rewrite !forallb_forall. auto.
Qed.

Lemma ascii_not_special c :
  isAscii c = true ->
  isSmartSingle c = false /\ isSmartDouble c = false /\ isDash c = false.
Proof.
  unfold isAscii, isSmartSingle, isSmartDouble, isDash. intros H.
  apply N.ltb_lt in H.
  repeat split; apply orb_false_iff; split; apply N.eqb_neq; lia.
Qed.

Lemma normalizeText_ascii s :
  forallb isAscii s = true -> normalizeText s = trim s.
Proof.
  intros H. unfold normalizeText.
  rewrite (replaceAll_none isSmartSingle), (replaceAll_none isSmartDouble),
    (replaceAll_none isDash); try reflexivity;
    (eapply forallb_weaken; [|exact H]); intros c Hc;
    apply negb_true_iff; now apply ascii_not_special.
Qed.

Lemma trimStart_length s : (List.length (trimStart s) <= List.length s)%nat.
Proof.
  induction s as [|c s IH]; simpl; [lia|].
  destruct (isWhiteSpace c); simpl; lia.
Qed.

Lemma trimStart_fixed s : trimStart s = s <-> startsWithSpace s = false.
Proof.
  destruct s as [|c s]; simpl; [tauto|].
  destruct (isWhiteSpace c); split; try congruence.
  intros H. pose proof (trimStart_length s) as L.
  rewrite H in L. simpl in L. lia.
Qed.

Lemma trim_length s : (List.length (trim s) <= List.length (trimStart s))%nat.
Proof.
  unfold trim, trimEnd. rewrite length_rev.
  etransitivity; [apply trimStart_length|]. now rewrite length_rev.
Qed.

Lemma trim_fixed s :
  trim s = s <-> startsWithSpace s = false /\ endsWithSpace s = false.
Proof.
  unfold endsWithSpace. split.
  - intros H.
    assert (Hs : trimStart s = s).
    { apply trimStart_fixed. destruct (startsWithSpace s) eqn:E; [|reflexivity].
      exfalso. destruct s as [|c s]; [discriminate|]. simpl in E.
      pose proof (trim_length (c :: s)) as L. rewrite H in L.
      simpl in L. rewrite E in L.
      pose proof (trimStart_length s). lia. }
    split; [now apply trimStart_fixed|].
    apply trimStart_fixed. unfold trim, trimEnd in H. rewrite Hs in H.
    rewrite <- (rev_involutive (trimStart (rev s))). now rewrite H.
  - intros [H1 H2]. apply trimStart_fixed in H1, H2.
    unfold trim, trimEnd. rewrite H1, H2. apply rev_involutive.
Qed.

(** C2, as the specification states it, fails: the text of a space
    followed by the letter a is ASCII, and its normal form is the letter
    alone. *)
Lemma normalizeText_ascii_not_identity :
  ~ (forall s, forallb isAscii s = true -> normalizeText s = s).
Proof.
  intros H. specialize (H (lit " a") eq_refl). vm_compute in H. discriminate.
Qed.

(** C2, amended. For every text of ASCII characters only, [normalizeText]
    returns the text without its leading and trailing white space; it
    returns the text unchanged exactly when the text neither starts nor
    ends with a white-space character. *)
Theorem normalizeText_ascii_trim (s : jsstring) :
  forallb isAscii s = true ->
  normalizeText s = trim s
  /\ (normalizeText s = s <->
      startsWithSpace s = false /\ endsWithSpace s = false).
Proof.
  intros H. rewrite (normalizeText_ascii s H). split; [reflexivity|].
  apply trim_fixed.
Qed.

Lemma normalizeText_ascii_trim_witness :
  forallb isAscii (lit "--list ") = true
  /\ normalizeText (lit "--list ") = lit "--list"
  /\ normalizeText (lit "--list") = lit "--list".
Proof.
  split; [reflexivity|]. split.
  - rewrite (proj1 (normalizeText_ascii_trim (lit "--list ") eq_refl)).
    reflexivity.
  - apply (proj2 (normalizeText_ascii_trim (lit "--list") eq_refl)).
    split; reflexivity.
Defined.

(** ** The extractor *)

Lemma span_spec p s run rest :
  span p s = (run, rest) ->
  s = run ++ rest
  /\ Forall (fun x => p x = true) run
  /\ match rest with c :: _ => p c = false | [] => True end.
Proof.
  revert run rest; induction s as [|c s IH]; simpl; intros run rest H.
  - injection H as <- <-. auto.
  - destruct (p c) eqn:E.
    + destruct (span p s) as [run' rest'] eqn:Es.
      injection H as <- <-. destruct (IH _ _ eq_refl) as (-> & Hrun & Hrest).
      auto.
    + injection H as <- <-. simpl. auto.
Qed.

Lemma span_app p run c rest :
  Forall (fun x => p x = true) run -> p c = false ->
  span p (run ++ c :: rest) = (run, c :: rest).
Proof.
  induction 1 as [|x run Hx _ IH]; simpl; intros Hc.
  - now rewrite Hc.
  - now rewrite Hx, IH.
Qed.

Lemma span_all p run :
  Forall (fun x => p x = true) run -> span p run = (run, []).
Proof.
  induction 1 as [|x run Hx _ IH]; simpl; [reflexivity|].
  now rewrite Hx, IH.
Qed.

(** One attempt of the regular expression, read declaratively: the text
    starts with a quote, a non-empty run without quotes and a quote.
    There is one such reading at most, whichever way the engine looks
    for it. *)
Lemma match_at_spec s group1 rest :
  match_at s = Some (group1, rest) <->
  exists q1 q2,
    s = q1 :: group1 ++ q2 :: rest
    /\ isQuote q1 = true /\ group1 <> []
    /\ Forall (fun x => isQuote x = false) group1
    /\ isQuote q2 = true.
Proof.
  split.
  - destruct s as [|q1 s1]; simpl; [discriminate|].
    destruct (isQuote q1) eqn:H1; [|discriminate].
    destruct (span _ s1) as [run rest'] eqn:E.
    apply span_spec in E as (-> & Hrun & _).
    destruct run as [|x run]; [discriminate|].
    destruct rest' as [|q2 rest'']; [discriminate|].
    destruct (isQuote q2) eqn:H2; [|discriminate].
    intros H. injection H as <- <-. exists q1, q2. repeat split; auto.
    + discriminate.
    + revert Hrun. apply Forall_impl. intros c. now destruct (isQuote c).
  - intros (q1 & q2 & -> & H1 & Hne & Hrun & H2). simpl. rewrite H1.
    rewrite span_app.
    + destruct group1; [contradiction|]. now rewrite H2.
    + revert Hrun. apply Forall_impl. intros c Hc. now rewrite Hc.
    + now rewrite H2.
Qed.

Lemma match_at_shorter s group1 rest :
  match_at s = Some (group1, rest) -> (List.length rest < List.length s)%nat.
Proof.
  destruct s as [|q0 s1]; simpl; [discriminate|].
  destruct (isQuote q0); [|discriminate].
  destruct (span _ s1) as [run rest'] eqn:E.
  apply span_spec in E as (-> & _ & _).
  destruct run as [|x run]; [discriminate|].
  destruct rest' as [|q' rest'']; [discriminate|].
  destruct (isQuote q'); [|discriminate].
  intros H. injection H as <- <-. simpl. rewrite length_app. simpl. lia.
Qed.

Lemma matchAll_from_fuel n m s :
  (List.length s < n)%nat -> (List.length s < m)%nat ->
  matchAll_from n s = matchAll_from m s.
Proof.
  revert m s; induction n as [|n IH]; intros m s Hn Hm; [lia|].
  destruct m as [|m]; [lia|]. simpl.
  destruct (match_at s) as [[group1 rest]|] eqn:E.
  - apply match_at_shorter in E. f_equal. apply IH; lia.
  - destruct s as [|c s']; [reflexivity|]. simpl in *. apply IH; lia.
Qed.

(** The search, one attempt at a time. *)
Lemma matchAll_step s :
  matchAll s =
  match match_at s with
  | Some (group1, rest) => group1 :: matchAll rest
  | None =>
      match s with
      | [] => []
      | _ :: s' => matchAll s'
      end
  end.
Proof.
  unfold matchAll at 1. cbn [matchAll_from].
  destruct (match_at s) as [[group1 rest]|] eqn:E.
  - apply match_at_shorter in E. f_equal.
    unfold matchAll. apply matchAll_from_fuel; lia.
  - destruct s as [|c s']; [reflexivity|].
    unfold matchAll. apply matchAll_from_fuel; simpl; lia.
Qed.

Lemma matchAll_skip a s :
  Forall (fun x => isQuote x = false) a -> matchAll (a ++ s) = matchAll s.
Proof.
  induction 1 as [|c a Hc _ IH]; [reflexivity|].
  rewrite matchAll_step. simpl. now rewrite Hc.
Qed.

Lemma matchAll_unquoted c :
  Forall (fun x => isQuote x = false) c -> matchAll c = [].
Proof.
  intros H. rewrite <- (app_nil_r c). now rewrite matchAll_skip.
Qed.

Lemma notQuote_Forall a :
  Forall (fun x => isQuote x = false) a ->
  Forall (fun x => negb (isQuote x) = true) a.
Proof.
  apply Forall_impl. intros x Hx. now rewrite Hx.
Qed.

Lemma matchAll_empty_run q0 q1 s :
  isQuote q0 = true -> isQuote q1 = true ->
  matchAll (q0 :: q1 :: s) = matchAll (q1 :: s).
Proof.
  intros H0 H1. rewrite matchAll_step. simpl. now rewrite H0, H1.
Qed.

Lemma matchAll_quotes b q1 s :
  Forall (fun x => isQuote x = true) b -> isQuote q1 = true ->
  matchAll (b ++ q1 :: s) = matchAll (q1 :: s).
Proof.
  intros Hb H1. induction Hb as [|q0 b H0 Hb IH]; [reflexivity|].
  rewrite <- IH. destruct b as [|q b']; simpl.
  - now apply matchAll_empty_run.
  - apply matchAll_empty_run; [exact H0 | now inversion Hb].
Qed.

Lemma matchAll_run q1 body q2 rest :
  isQuote q1 = true -> body <> [] ->
  Forall (fun x => isQuote x = false) body -> isQuote q2 = true ->
  matchAll (q1 :: body ++ q2 :: rest) = body :: matchAll rest.
Proof.
  intros H1 Hne Hbody H2. rewrite matchAll_step. simpl. rewrite H1.
  rewrite span_app; [|now apply notQuote_Forall | now rewrite H2].
  destruct body as [|x body]; [contradiction|]. now rewrite H2.
Qed.

Lemma matchAll_dangling b c :
  Forall (fun x => isQuote x = true) b ->
  Forall (fun x => isQuote x = false) c ->
  matchAll (b ++ c) = [].
Proof.
  intros Hb Hc. induction Hb as [|q0 b H0 Hb IH]; simpl.
  - now apply matchAll_unquoted.
  - destruct b as [|q b']; simpl in *.
    + rewrite matchAll_step. simpl. rewrite H0.
      rewrite span_all by now apply notQuote_Forall.
      destruct c; now apply matchAll_unquoted.
    + rewrite matchAll_empty_run; [exact IH | exact H0 | now inversion Hb].
Qed.

(** Every text has one of the two shapes of [QuotedRunsBy]. *)
Lemma quoted_shape (delim : N -> bool) s :
  (exists a b c,
      s = a ++ b ++ c
      /\ Forall (fun x => delim x = false) a
      /\ Forall (fun x => delim x = true) b
      /\ Forall (fun x => delim x = false) c)
  \/ (exists a b q1 body q2 rest,
      s = a ++ b ++ q1 :: body ++ q2 :: rest
      /\ Forall (fun x => delim x = false) a
      /\ Forall (fun x => delim x = true) b
      /\ delim q1 = true /\ body <> []
      /\ Forall (fun x => delim x = false) body
      /\ delim q2 = true).
Proof.
  destruct (span (fun x => negb (delim x)) s) as [a s1] eqn:Ea.
  apply span_spec in Ea as (-> & Ha & Hs1).
  assert (Ha' : Forall (fun x => delim x = false) a).
  { revert Ha. apply Forall_impl. intros x. now destruct (delim x). }
  destruct (span delim s1) as [b0 s2] eqn:Eb.
  apply span_spec in Eb as (-> & Hb & Hs2).
  destruct b0 as [|x0 b0'].
  { left. exists a, [], []. simpl in *.
    destruct s2 as [|x s2]; [auto|].
    rewrite Hs2 in Hs1. discriminate. }
  destruct (@exists_last _ (x0 :: b0') ltac:(discriminate)) as (b & q1 & Hlast).
  rewrite Hlast in *. clear Hlast x0 b0'.
  apply Forall_app in Hb as [Hb Hq1]. inversion Hq1 as [|? ? Hq1' _]; subst.
  destruct (span (fun x => negb (delim x)) s2) as [body s3] eqn:Ec.
  apply span_spec in Ec as (-> & Hbody & Hs3).
  assert (Hbody' : Forall (fun x => delim x = false) body).
  { revert Hbody. apply Forall_impl. intros x. now destruct (delim x). }
  destruct s3 as [|q2 rest].
  - left. exists a, (b ++ [q1]), body. rewrite app_nil_r. repeat split; auto.
    apply Forall_app. auto.
  - right. exists a, b, q1, body, q2, rest.
    apply negb_false_iff in Hs3.
    rewrite <- !app_assoc. simpl. repeat split; auto.
    intros ->. simpl in Hs2. congruence.
Qed.

Lemma extract_runs_plain s : QuotedRunsBy isQuote s (extractQuotedStrings s).
Proof.
  remember (List.length s) as n eqn:Hn. revert s Hn.
  induction n as [n IH] using lt_wf_ind. intros s ->.
  unfold extractQuotedStrings.
  destruct (quoted_shape isQuote s)
    as [(a & b & c & -> & Ha & Hb & Hc)
       |(a & b & q1 & body & q2 & rest & -> & Ha & Hb & H1 & Hne & Hbody & H2)].
  - rewrite matchAll_skip, matchAll_dangling by assumption.
    now constructor.
  - rewrite matchAll_skip, matchAll_quotes, matchAll_run by assumption.
    simpl. constructor; try assumption.
    apply (IH (List.length rest)); [|reflexivity].
    rewrite !length_app. simpl. rewrite length_app. simpl. lia.
Qed.

Lemma delimiter_plain c :
  isSmartQuote c = false -> isDelimiter c = isQuote c.
Proof.
  unfold isSmartQuote, isDelimiter, isQuote. intros H.
  apply orb_false_iff in H as [-> ->].
  destruct (c =? dquote), (c =? squote); reflexivity.
Qed.

Lemma Forall_delim_ext (d1 d2 : N -> bool) v s :
  Forall (fun x => d1 x = d2 x) s ->
  Forall (fun x => d1 x = v) s ->
  Forall (fun x => d2 x = v) s.
Proof.
  intros Hs Hq. rewrite Forall_forall in *. intros x Hx.
  rewrite <- Hs; auto.
Qed.

(** Two delimiter classes that agree on the characters of a text find
    the same quoted runs in it. *)
Lemma QuotedRunsBy_ext (d1 d2 : N -> bool) s l :
  Forall (fun x => d1 x = d2 x) s ->
  QuotedRunsBy d1 s l -> QuotedRunsBy d2 s l.
Proof.
  intros Hs H.
  induction H as [a b c Ha Hb Hc | a b q1 body q2 rest l Ha Hb H1 Hne Hbody H2 _ IH].
  - apply Forall_app in Hs as [Hsa Hs]. apply Forall_app in Hs as [Hsb Hsc].
    constructor; eapply Forall_delim_ext; eassumption.
  - apply Forall_app in Hs as [Hsa Hs]. apply Forall_app in Hs as [Hsb Hs].
    inversion Hs as [|? ? Hs1 Hs']; subst.
    apply Forall_app in Hs' as [Hsbody Hs']. inversion Hs' as [|? ? Hs2 Hsrest]; subst.
    constructor; try (eapply Forall_delim_ext; eassumption); try congruence.
    now apply IH.
Qed.

Lemma runs_plain_unique s l :
  QuotedRunsBy isQuote s l -> l = extractQuotedStrings s.
Proof.
  unfold extractQuotedStrings.
  induction 1 as [a b c Ha Hb Hc | a b q1 body q2 rest l Ha Hb H1 Hne Hbody H2 _ IH].
  - now rewrite matchAll_skip, matchAll_dangling.
  - rewrite matchAll_skip, matchAll_quotes, matchAll_run by assumption.
    simpl. now rewrite IH.
Qed.

(** C3, as the specification states it, fails: between the two quotes of
    the text below stand a space, the letter a and a space, and the
    extractor returns the letter alone. *)
Lemma extractQuotedStrings_not_raw_contents :
  extractQuotedStrings ([dquote] ++ lit " a " ++ [dquote]) = [lit "a"]
  /\ extractQuotedStrings ([dquote] ++ lit " a " ++ [dquote]) <> [lit " a "].
Proof.
  split; [reflexivity|]. vm_compute. discriminate.
Qed.

(** The regular expression of the extractor has only the plain quotes in
    its class: a run between smart quotes is not found in raw text. *)
Example extractQuotedStrings_smart_delimiters :
  extractQuotedStrings [8220; 97; 8221] = [].
Proof. reflexivity. Qed.

(** C3, amended. For every text without smart quote characters,
    [extractQuotedStrings] returns, from left to right, the normalized
    contents of the non-empty runs that stand between two quote
    delimiters; a quote that no later quote closes yields nothing, and a
    text without quoted runs yields the empty list. *)
Theorem extractQuotedStrings_runs (s : jsstring) :
  Forall (fun x => isSmartQuote x = false) s ->
  forall l, QuotedRuns s l <-> l = extractQuotedStrings s.
Proof.
  intros Hs l. split.
  - intros H. apply runs_plain_unique.
    apply QuotedRunsBy_ext with (d1 := isDelimiter); [|exact H].
    revert Hs. apply Forall_impl. intros x. apply delimiter_plain.
  - intros ->. apply QuotedRunsBy_ext with (d1 := isQuote).
    + revert Hs. apply Forall_impl. intros x Hx. symmetry. now apply delimiter_plain.
    + apply extract_runs_plain.
Qed.

Lemma extractQuotedStrings_runs_witness :
  Forall (fun x => isSmartQuote x = false)
    ([dquote] ++ lit "a" ++ [dquote] ++ lit " " ++ [dquote] ++ lit "b" ++ [dquote])
  /\ QuotedRuns
       ([dquote] ++ lit "a" ++ [dquote] ++ lit " " ++ [dquote] ++ lit "b" ++ [dquote])
       [lit "a"; lit "b"].
Proof.
  assert (H : Forall (fun x => isSmartQuote x = false)
                ([dquote] ++ lit "a" ++ [dquote] ++ lit " " ++ [dquote] ++ lit "b" ++ [dquote])).
  { repeat constructor. }
  split; [exact H|].
  apply (proj2 (extractQuotedStrings_runs _ H [lit "a"; lit "b"])).
  reflexivity.
Defined.

(** The extractor on the three texts the specification lists. *)
Example extractQuotedStrings_two :
  extractQuotedStrings
    ([dquote] ++ lit "a" ++ [dquote] ++ lit " " ++ [dquote] ++ lit "b" ++ [dquote])
  = [lit "a"; lit "b"].
Proof. reflexivity. Qed.

Example extractQuotedStrings_no_quotes :
  extractQuotedStrings (lit "no quotes") = [].
Proof. reflexivity. Qed.

Example extractQuotedStrings_only_one :
  extractQuotedStrings ([dquote] ++ lit "only one") = [].
Proof. reflexivity. Qed.

(** ** Command classification *)

Lemma prefixes_comparable s p1 p2 :
  startsWith s p1 = true -> startsWith s p2 = true ->
  startsWith p1 p2 = true \/ startsWith p2 p1 = true.
Proof.
  revert s p2; induction p1 as [|c p1 IH]; intros s p2 H1 H2.
  - right. reflexivity.
  - destruct p2 as [|d p2]; [left; reflexivity|].
    destruct s as [|x s]; [discriminate|]. simpl in *.
    apply andb_true_iff in H1 as [Hc H1]. apply andb_true_iff in H2 as [Hd H2].
    apply N.eqb_eq in Hc, Hd. subst c d. rewrite N.eqb_refl. simpl.
    eauto.
Qed.

Lemma prefixes_exclusive s p1 p2 :
  startsWith p1 p2 = false -> startsWith p2 p1 = false ->
  startsWith s p1 = true -> startsWith s p2 = true -> False.
Proof.
  intros F1 F2 H1 H2.
  destruct (prefixes_comparable _ _ _ H1 H2); congruence.
Qed.

Lemma onMessageCreate_dispatch toLowerCase message :
  author_bot message = false ->
  onMessageCreate toLowerCase message =
  (log (Received (normalizeText (content message))) ;;
   try_catch
     (runCommand toLowerCase message (normalizeText (content message))
        (classify (normalizeText (content message))))
     reportError).
Proof.
  intros Hbot. unfold onMessageCreate, classify. rewrite Hbot.
  destruct (startsWith _ (lit "--help")); [reflexivity|].
  destruct (startsWith _ (lit "--list")); [reflexivity|].
  destruct (startsWith _ (lit "--add")); [reflexivity|].
  destruct (startsWith _ (lit "--remove")); [reflexivity|].
  destruct (startsWith _ (lit "--edit")); reflexivity.
Qed.

Ltac exclusive_prefixes :=
  match goal with
  | H1 : startsWith ?s ?p1 = true, H2 : startsWith ?s ?p2 = true |- _ =>
      exfalso; apply (@prefixes_exclusive s p1 p2); [reflexivity | reflexivity | exact H1 | exact H2]
  end.

Lemma classify_prefix content :
  (classify content = CmdHelp <-> startsWith content (lit "--help") = true)
  /\ (classify content = CmdList <-> startsWith content (lit "--list") = true)
  /\ (classify content = CmdAdd <-> startsWith content (lit "--add") = true)
  /\ (classify content = CmdRemove <-> startsWith content (lit "--remove") = true)
  /\ (classify content = CmdEdit <-> startsWith content (lit "--edit") = true)
  /\ (classify content = PlainText <->
        startsWith content (lit "--help") = false
        /\ startsWith content (lit "--list") = false
        /\ startsWith content (lit "--add") = false
        /\ startsWith content (lit "--remove") = false
        /\ startsWith content (lit "--edit") = false).
Proof.
  unfold classify.
  destruct (startsWith content (lit "--help")) eqn:H1;
  destruct (startsWith content (lit "--list")) eqn:H2;
  destruct (startsWith content (lit "--add")) eqn:H3;
  destruct (startsWith content (lit "--remove")) eqn:H4;
  destruct (startsWith content (lit "--edit")) eqn:H5;
  try exclusive_prefixes;
  intuition congruence.
Qed.

(** C4, as the specification states it, fails: the lower-cased form of
    the message below starts with the help prefix, and the listener
    treats the message as plain text and answers with the response of
    the trigger it contains. *)
Lemma classify_is_not_lowercased :
  classify_lowercased asciiLower (normalizeText (lit "--HELP")) = CmdHelp
  /\ classify (normalizeText (lit "--HELP")) = PlainText
  /\ channel (snd (onMessageCreate asciiLower (userMessage (lit "--HELP"))
                     (worldOf [mkDoc (lit "help") (lit "ask nicely") text 1 None])))
     = [Delivered (Text (lit "ask nicely"))].
Proof. repeat split. Qed.

(** C4, amended. For every message of a user, the listener classifies
    the normalized text by literal, case-sensitive prefix match: it
    tests the five command prefixes in the order help, list, add,
    remove, edit, runs the branch of the first one the text starts with,
    and runs the matcher when the text starts with none of them; a text
    that starts with the add prefix is never run through the matcher. *)
Theorem classification_by_prefix (toLowerCase : jsstring -> jsstring)
    (message : Message) :
  author_bot message = false ->
  let content := normalizeText (content message) in
  onMessageCreate toLowerCase message =
    (log (Received content) ;;
     try_catch (runCommand toLowerCase message content (classify content))
       reportError)
  /\ (classify content = CmdHelp <-> startsWith content (lit "--help") = true)
  /\ (classify content = CmdList <-> startsWith content (lit "--list") = true)
  /\ (classify content = CmdAdd <-> startsWith content (lit "--add") = true)
  /\ (classify content = CmdRemove <-> startsWith content (lit "--remove") = true)
  /\ (classify content = CmdEdit <-> startsWith content (lit "--edit") = true)
  /\ (classify content = PlainText <->
        startsWith content (lit "--help") = false
        /\ startsWith content (lit "--list") = false
        /\ startsWith content (lit "--add") = false
        /\ startsWith content (lit "--remove") = false
        /\ startsWith content (lit "--edit") = false).
Proof.
  intros Hbot content. split.
  - now apply onMessageCreate_dispatch.
  - apply classify_prefix.
Qed.

Lemma classification_by_prefix_witness :
  author_bot (userMessage (lit "--add " ++ quoted "hello" ++ lit " " ++ quoted "hi there")) = false
  /\ classify (normalizeText (lit "--add " ++ quoted "hello" ++ lit " " ++ quoted "hi there"))
     = CmdAdd.
Proof.
  split; [reflexivity|].
  apply (proj1 (proj2 (proj2 (proj2
    (@classification_by_prefix asciiLower
       (userMessage (lit "--add " ++ quoted "hello" ++ lit " " ++ quoted "hi there"))
       eq_refl))))).
  reflexivity.
Defined.

(** ** The collection operations *)

Lemma findOne_None t c :
  Mongo.findOne t c = None <-> (forall d, In d c -> trigger d <> t).
Proof.
  unfold Mongo.findOne. split.
  - intros H d Hd E. apply (find_none _ _ H) in Hd.
    rewrite E, streq_refl in Hd. discriminate.
  - intros H. induction c as [|d c IH]; [reflexivity|]. simpl.
    destruct (streq (trigger d) t) eqn:E.
    + apply streq_spec in E. exfalso. apply (H d); [now left | exact E].
    + apply IH. intros d' Hd'. apply H. now right.
Qed.

Lemma findOne_Some t c d :
  Mongo.findOne t c = Some d -> In d c /\ trigger d = t.
Proof.
  unfold Mongo.findOne. intros H. apply find_some in H as [Hin E].
  now apply streq_spec in E.
Qed.

Lemma findOne_exists t c :
  (exists d, In d c /\ trigger d = t) <-> Mongo.findOne t c <> None.
Proof.
  split.
  - intros (d & Hd & E) H. rewrite findOne_None in H. now apply (H d).
  - intros H. destruct (Mongo.findOne t c) as [d|] eqn:E; [|contradiction].
    exists d. now apply findOne_Some.
Qed.

(** The first document with trigger [t], and what surrounds it. *)
Lemma first_with_trigger t c :
  (exists d, In d c /\ trigger d = t) ->
  exists l1 d l2,
    c = l1 ++ d :: l2 /\ trigger d = t
    /\ (forall d', In d' l1 -> trigger d' <> t).
Proof.
  induction c as [|d0 c IH]; intros (d & Hd & E); [contradiction|].
  destruct (streq (trigger d0) t) eqn:E0.
  - apply streq_spec in E0. exists [], d0, c. simpl. tauto.
  - apply streq_false in E0. destruct Hd as [-> | Hd]; [contradiction|].
    destruct IH as (l1 & d1 & l2 & -> & E1 & Hl1); [now exists d|].
    exists (d0 :: l1), d1, l2. repeat split; [assumption|].
    intros d' [<- | Hd']; auto.
Qed.

Lemma findOne_first t l1 d l2 :
  trigger d = t -> (forall d', In d' l1 -> trigger d' <> t) ->
  Mongo.findOne t (l1 ++ d :: l2) = Some d.
Proof.
  intros E Hl1. unfold Mongo.findOne. induction l1 as [|d0 l1 IH]; simpl.
  - now rewrite E, streq_refl.
  - destruct (streq (trigger d0) t) eqn:E0.
    + apply streq_spec in E0. exfalso. apply (Hl1 d0); [now left | exact E0].
    + apply IH. intros d' Hd'. apply Hl1. now right.
Qed.

Lemma deleteOne_none t c :
  (forall d, In d c -> trigger d <> t) -> Mongo.deleteOne t c = (c, 0).
Proof.
  induction c as [|d c IH]; intros H; [reflexivity|]. simpl.
  destruct (streq (trigger d) t) eqn:E.
  - apply streq_spec in E. exfalso. apply (H d); [now left | exact E].
  - rewrite IH; [reflexivity|]. intros d' Hd'. apply H. now right.
Qed.

Lemma deleteOne_first t l1 d l2 :
  trigger d = t -> (forall d', In d' l1 -> trigger d' <> t) ->
  Mongo.deleteOne t (l1 ++ d :: l2) = (l1 ++ l2, 1).
Proof.
  intros E Hl1. induction l1 as [|d0 l1 IH]; simpl.
  - now rewrite E, streq_refl.
  - destruct (streq (trigger d0) t) eqn:E0.
    + apply streq_spec in E0. exfalso. apply (Hl1 d0); [now left | exact E0].
    + rewrite IH; [reflexivity|]. intros d' Hd'. apply Hl1. now right.
Qed.

Lemma updateOne_none t set c :
  (forall d, In d c -> trigger d <> t) -> Mongo.updateOne t set c = c.
Proof.
  induction c as [|d c IH]; intros H; [reflexivity|]. simpl.
  destruct (streq (trigger d) t) eqn:E.
  - apply streq_spec in E. exfalso. apply (H d); [now left | exact E].
  - rewrite IH; [reflexivity|]. intros d' Hd'. apply H. now right.
Qed.

Lemma updateOne_first t set l1 d l2 :
  trigger d = t -> (forall d', In d' l1 -> trigger d' <> t) ->
  Mongo.updateOne t set (l1 ++ d :: l2) = l1 ++ set d :: l2.
Proof.
  intros E Hl1. induction l1 as [|d0 l1 IH]; simpl.
  - now rewrite E, streq_refl.
  - destruct (streq (trigger d0) t) eqn:E0.
    + apply streq_spec in E0. exfalso. apply (Hl1 d0); [now left | exact E0].
    + rewrite IH; [reflexivity|]. intros d' Hd'. apply Hl1. now right.
Qed.

(** ** The commands *)

Lemma newResponse_pure message w : snd (newResponse message w) = w.
Proof.
  unfold newResponse. destruct (attachments message); [|reflexivity].
  destruct (negb _); reflexivity.
Qed.

Lemma newResponse_text message w :
  attachments message = [] ->
  newResponse message w =
  (if Nat.eqb (List.length (extractQuotedStrings (content message))) 2
   then Return (nth 1 (extractQuotedStrings (content message)) [], text)
   else Throw InvalidFormat, w).
Proof.
  unfold newResponse. intros ->.
  destruct (Nat.eqb _ 2); reflexivity.
Qed.

(** The three ways [addResponse] ends. *)
Lemma addResponse_cases toLowerCase message t w :
  (Mongo.findOne (toLowerCase t) (responses w) <> None
   /\ addResponse toLowerCase message t w = (Throw DuplicateTrigger, w))
  \/ (Mongo.findOne (toLowerCase t) (responses w) = None
      /\ newResponse message w = (Throw InvalidFormat, w)
      /\ addResponse toLowerCase message t w = (Throw InvalidFormat, w))
  \/ (exists r ty,
        Mongo.findOne (toLowerCase t) (responses w) = None
        /\ newResponse message w = (Return (r, ty), w)
        /\ addResponse toLowerCase message t w =
           (Return (added t ty),
            withResponses (responses w ++ [mkDoc (toLowerCase t) r ty (clock w) None]) w)).
Proof.
  unfold addResponse, bind, findOne.
  destruct (Mongo.findOne (toLowerCase t) (responses w)) as [d|] eqn:E.
  - left. split; [discriminate | reflexivity].
  - right. unfold newResponse.
    destruct (attachments message) as [|attachment l].
    + destruct (negb _) eqn:En.
      * left. repeat split.
      * right. eexists _, _. repeat split.
    + right. eexists _, _. repeat split.
Qed.

(** The three ways [editResponse] ends. *)
Lemma editResponse_cases toLowerCase message t w :
  (Mongo.findOne (toLowerCase t) (responses w) = None
   /\ editResponse toLowerCase message t w = (Throw TriggerNotFound, w))
  \/ (Mongo.findOne (toLowerCase t) (responses w) <> None
      /\ newResponse message w = (Throw InvalidFormat, w)
      /\ editResponse toLowerCase message t w = (Throw InvalidFormat, w))
  \/ (exists r ty,
        Mongo.findOne (toLowerCase t) (responses w) <> None
        /\ newResponse message w = (Return (r, ty), w)
        /\ editResponse toLowerCase message t w =
           (Return (updated t ty),
            withResponses
              (Mongo.updateOne (toLowerCase t) (setResponse r ty (clock w)) (responses w)) w)).
Proof.
  unfold editResponse, bind, findOne.
  destruct (Mongo.findOne (toLowerCase t) (responses w)) as [d|] eqn:E.
  - right. unfold newResponse.
    destruct (attachments message) as [|attachment l].
    + destruct (negb _) eqn:En.
      * left. repeat split. discriminate.
      * right. eexists _, _. repeat split. discriminate.
    + right. eexists _, _. repeat split. discriminate.
  - left. split; reflexivity.
Qed.

Lemma removeResponse_cases toLowerCase t w :
  removeResponse toLowerCase t w =
  (if snd (Mongo.deleteOne (toLowerCase t) (responses w)) =? 0
   then Throw TriggerNotFound else Return (removed t),
   withResponses (fst (Mongo.deleteOne (toLowerCase t) (responses w))) w).
Proof.
  unfold removeResponse, bind, deleteOne.
  destruct (Mongo.deleteOne _ _) as [c n]. simpl.
  destruct (n =? 0); reflexivity.
Qed.

Lemma withResponses_same w : withResponses (responses w) w = w.
Proof. now destruct w. Qed.

(** C5. For every collection and every trigger, [addResponse] fails with
    [DuplicateTrigger] exactly when a document with the lower-cased
    trigger is already stored, and then leaves the world as it is; after
    a successful add, adding a trigger with the same lower-cased form
    fails with [DuplicateTrigger]. *)
Theorem addResponse_duplicate (toLowerCase : jsstring -> jsstring)
    (message : Message) (t : jsstring) (w : World) :
  (fst (addResponse toLowerCase message t w) = Throw DuplicateTrigger
   <-> exists d, In d (responses w) /\ trigger d = toLowerCase t)
  /\ (fst (addResponse toLowerCase message t w) = Throw DuplicateTrigger ->
      snd (addResponse toLowerCase message t w) = w)
  /\ (forall result w' message2 t2,
        addResponse toLowerCase message t w = (Return result, w') ->
        toLowerCase t2 = toLowerCase t ->
        addResponse toLowerCase message2 t2 w' = (Throw DuplicateTrigger, w')).
Proof.
  destruct (addResponse_cases toLowerCase message t w)
    as [[Hex ->] | [(Hno & _ & ->) | (r & ty & Hno & _ & ->)]]; simpl.
  - split; [|split]; try discriminate; try reflexivity.
    split; [intros _; now apply findOne_exists | reflexivity].
  - split; [|split]; try discriminate.
    split; [discriminate|]. intros Hex. apply findOne_exists in Hex. contradiction.
  - split; [|split]; try discriminate.
    + split; [discriminate|]. intros Hex. apply findOne_exists in Hex. contradiction.
    + intros result w' message2 t2 H E. injection H as <- <-.
      destruct (addResponse_cases toLowerCase message2 t2
                  (withResponses (responses w ++ [mkDoc (toLowerCase t) r ty (clock w) None]) w))
        as [[_ ->] | [(Hno2 & _) | (r2 & ty2 & Hno2 & _)]]; [reflexivity| |];
        exfalso; rewrite findOne_None in Hno2;
        apply (Hno2 (mkDoc (toLowerCase t) r ty (clock w) None));
        simpl; auto using in_or_app, in_eq.
Qed.

Lemma addResponse_duplicate_witness :
  addResponse asciiLower
    (userMessage (lit "--add " ++ quoted "HELLO" ++ lit " " ++ quoted "again"))
    (lit "HELLO")
    (snd (addResponse asciiLower
            (userMessage (lit "--add " ++ quoted "Hello" ++ lit " " ++ quoted "hi there"))
            (lit "Hello") (worldOf [])))
  = (Throw DuplicateTrigger,
     worldOf [mkDoc (lit "hello") (lit "hi there") text 1000 None]).
Proof.
  apply (proj2 (proj2 (addResponse_duplicate asciiLower
    (userMessage (lit "--add " ++ quoted "Hello" ++ lit " " ++ quoted "hi there"))
    (lit "Hello") (worldOf [])))
    (added (lit "Hello") text)); reflexivity.
Defined.

Lemma addResponse_text toLowerCase message t w :
  attachments message = [] ->
  Mongo.findOne (toLowerCase t) (responses w) = None ->
  addResponse toLowerCase message t w =
  if Nat.eqb (List.length (extractQuotedStrings (content message))) 2
  then (Return (added t text),
        withResponses
          (responses w ++
           [mkDoc (toLowerCase t) (nth 1 (extractQuotedStrings (content message)) [])
              text (clock w) None]) w)
  else (Throw InvalidFormat, w).
Proof.
  intros Hatt Hno. unfold addResponse, bind, findOne. rewrite Hno.
  rewrite (newResponse_text message w Hatt).
  destruct (Nat.eqb _ 2); reflexivity.
Qed.

Lemma editResponse_text toLowerCase message t w :
  attachments message = [] ->
  Mongo.findOne (toLowerCase t) (responses w) <> None ->
  editResponse toLowerCase message t w =
  if Nat.eqb (List.length (extractQuotedStrings (content message))) 2
  then (Return (updated t text),
        withResponses
          (Mongo.updateOne (toLowerCase t)
             (setResponse (nth 1 (extractQuotedStrings (content message)) []) text (clock w))
             (responses w)) w)
  else (Throw InvalidFormat, w).
Proof.
  intros Hatt Hex. unfold editResponse, bind, findOne.
  destruct (Mongo.findOne _ _); [|contradiction].
  rewrite (newResponse_text message w Hatt).
  destruct (Nat.eqb _ 2); reflexivity.
Qed.

(** C6, as the specification states it, fails: the message below has no
    attachment and one quoted string, and adding its trigger to a
    collection that already holds it fails with [DuplicateTrigger], not
    with [InvalidFormat]. *)
Lemma addResponse_duplicate_before_format :
  attachments (userMessage (lit "--add " ++ quoted "hello")) = []
  /\ List.length (extractQuotedStrings (lit "--add " ++ quoted "hello")) = 1%nat
  /\ fst (addResponse asciiLower (userMessage (lit "--add " ++ quoted "hello"))
            (lit "hello")
            (worldOf [mkDoc (lit "hello") (lit "hi there") text 1 None]))
     = Throw DuplicateTrigger
  /\ Throw (A := jsstring) DuplicateTrigger <> Throw InvalidFormat.
Proof. repeat split. discriminate. Qed.

(** C6, amended. For every add or edit whose message carries no
    attachment and whose trigger passes the check on the collection (no
    document with the lower-cased trigger for add, one for edit), the
    operation fails with [InvalidFormat], the world unchanged, unless the
    text of the message holds exactly two quoted strings; with two, it
    succeeds and the document then stored under the trigger has the
    second quoted string as response and type [text]. *)
Theorem text_response_two_quoted (toLowerCase : jsstring -> jsstring)
    (message : Message) (t : jsstring) (w : World) :
  attachments message = [] ->
  let quoted := extractQuotedStrings (content message) in
  ((forall d, In d (responses w) -> trigger d <> toLowerCase t) ->
     (List.length quoted <> 2%nat ->
        addResponse toLowerCase message t w = (Throw InvalidFormat, w))
     /\ (List.length quoted = 2%nat ->
        exists result w' d,
          addResponse toLowerCase message t w = (Return result, w')
          /\ Mongo.findOne (toLowerCase t) (responses w') = Some d
          /\ response d = nth 1 quoted [] /\ type d = text))
  /\ ((exists d, In d (responses w) /\ trigger d = toLowerCase t) ->
     (List.length quoted <> 2%nat ->
        editResponse toLowerCase message t w = (Throw InvalidFormat, w))
     /\ (List.length quoted = 2%nat ->
        exists result w' d,
          editResponse toLowerCase message t w = (Return result, w')
          /\ Mongo.findOne (toLowerCase t) (responses w') = Some d
          /\ response d = nth 1 quoted [] /\ type d = text)).
Proof.
  intros Hatt quoted. split.
  - intros Hno. apply findOne_None in Hno.
    rewrite (addResponse_text toLowerCase message t w Hatt Hno). fold quoted.
    destruct (Nat.eqb_spec (List.length quoted) 2) as [E|E].
    + split; [contradiction|]. intros _.
      eexists _, _, _. split; [reflexivity|]. simpl.
      split; [apply findOne_first; [reflexivity | now apply findOne_None]|].
      split; reflexivity.
    + split; [reflexivity | contradiction].
  - intros Hex. pose proof Hex as Hsome. apply findOne_exists in Hsome.
    rewrite (editResponse_text toLowerCase message t w Hatt Hsome). fold quoted.
    destruct (Nat.eqb_spec (List.length quoted) 2) as [E|E].
    + split; [contradiction|]. intros _.
      destruct (first_with_trigger _ _ Hex) as (l1 & d & l2 & Hc & Hd & Hl1).
      eexists _, _, _. split; [reflexivity|]. simpl.
      rewrite Hc, (updateOne_first _ _ _ _ _ Hd Hl1).
      split; [apply findOne_first; [exact Hd | exact Hl1]|].
      split; reflexivity.
    + split; [reflexivity | contradiction].
Qed.

Lemma text_response_two_quoted_witness :
  attachments (userMessage (lit "--add " ++ quoted "hello" ++ lit " " ++ quoted "hi there")) = []
  /\ addResponse asciiLower (userMessage (lit "--add " ++ quoted "hello")) (lit "hello")
       (worldOf [])
     = (Throw InvalidFormat, worldOf []).
Proof.
  split; [reflexivity|].
  apply (proj1 (@text_response_two_quoted asciiLower
                  (userMessage (lit "--add " ++ quoted "hello")) (lit "hello")
                  (worldOf []) eq_refl)).
  - intros d [].
  - vm_compute. discriminate.
Defined.

Lemma unique_trigger_removed l1 (d : Doc) l2 :
  NoDup (List.map trigger (l1 ++ d :: l2)) ->
  forall d', In d' (l1 ++ l2) -> trigger d' <> trigger d.
Proof.
  rewrite map_app. simpl. intros H d' Hd' E.
  apply NoDup_remove_2 in H. apply H. rewrite <- map_app, <- E.
  now apply in_map.
Qed.

Lemma list_command toLowerCase message content w :
  List.map payload (channel (snd (runCommand toLowerCase message content CmdList w)))
  = List.map payload (channel w) ++ [Text (listText (responses w))].
Proof.
  unfold runCommand, bind, findAll, send.
  destruct (network w) as [|[err|] net]; simpl; rewrite map_app; reflexivity.
Qed.

Lemma no_trigger_filter t c :
  (forall d, In d c -> trigger d <> t)
  <-> filter (fun x => streq (trigger x) t) c = [].
Proof.
  induction c as [|d c IH]; simpl.
  - split; [reflexivity | intros _ d []].
  - destruct (streq (trigger d) t) eqn:E.
    + apply streq_spec in E. split; [|discriminate].
      intros H. exfalso. apply (H d); [now left | exact E].
    + apply streq_false in E. rewrite <- IH. split.
      * intros H d' Hd'. apply H. now right.
      * intros H d' [<- | Hd']; auto.
Qed.

(** C7, as the specification states it, fails: from a collection with
    two documents of one trigger (which two concurrent adds can leave),
    the remove succeeds and deletes the first, and the listing sent for a
    following list command still shows the trigger. *)
Lemma removeResponse_leaves_duplicates :
  removeResponse asciiLower (lit "hello")
    (worldOf [mkDoc (lit "hello") (lit "hi there") text 1 None;
              mkDoc (lit "hello") (lit "hey") text 2 None])
  = (Return (lit "Removed: " ++ quoted "hello"),
     worldOf [mkDoc (lit "hello") (lit "hey") text 2 None])
  /\ channel (snd (onMessageCreate asciiLower (userMessage (lit "--list"))
                     (worldOf [mkDoc (lit "hello") (lit "hey") text 2 None])))
     = [Delivered (Text (lit "Responses:" ++ [newline]
                         ++ lit "- " ++ quoted "hello" ++ lit " (text)"))].
Proof. split; reflexivity. Qed.

(** C7, amended. For every collection and every trigger,
    [removeResponse] fails with [TriggerNotFound] exactly when no document
    has the lower-cased trigger, and then leaves the world as it is;
    otherwise it deletes the first such document, keeps every other one,
    and returns the confirmation made of [Removed: ] and the trigger
    between double quotes.  The listing sent for a following list command
    has one line for each remaining document; no remaining document has
    the removed trigger exactly when the collection held one document
    with it, which is so whenever the triggers of the collection are
    unique. *)
Theorem removeResponse_first_record (toLowerCase : jsstring -> jsstring)
    (t : jsstring) (w : World) :
  (fst (removeResponse toLowerCase t w) = Throw TriggerNotFound
   <-> forall d, In d (responses w) -> trigger d <> toLowerCase t)
  /\ (fst (removeResponse toLowerCase t w) = Throw TriggerNotFound ->
      snd (removeResponse toLowerCase t w) = w)
  /\ ((exists d, In d (responses w) /\ trigger d = toLowerCase t) ->
      exists l1 d l2,
        responses w = l1 ++ d :: l2
        /\ trigger d = toLowerCase t
        /\ (forall d', In d' l1 -> trigger d' <> toLowerCase t)
        /\ removeResponse toLowerCase t w
           = (Return (lit "Removed: " ++ [dquote] ++ t ++ [dquote]),
              mkWorld (l1 ++ l2) (clock w) (network w) (channel w) (console w))
        /\ (forall message content,
              List.map payload
                (channel (snd (runCommand toLowerCase message content CmdList
                                 (mkWorld (l1 ++ l2) (clock w) (network w)
                                    (channel w) (console w)))))
              = List.map payload (channel w)
                ++ [Text (lit "Responses:" ++ [newline]
                          ++ join [newline]
                               (List.map
                                  (fun x =>
                                     lit "- " ++ [dquote] ++ trigger x ++ [dquote]
                                     ++ lit " ("
                                     ++ match type x with
                                        | text => lit "text"
                                        | image => lit "image"
                                        | file => lit "file"
                                        end
                                     ++ lit ")")
                                  (l1 ++ l2)))])
        /\ ((forall d', In d' (l1 ++ l2) -> trigger d' <> toLowerCase t)
            <-> List.length (filter (fun x => streq (trigger x) (toLowerCase t))
                               (responses w)) = 1%nat)
        /\ (NoDup (List.map trigger (responses w)) ->
            forall d', In d' (l1 ++ l2) -> trigger d' <> toLowerCase t)).
Proof.
  rewrite removeResponse_cases. simpl.
  destruct (Mongo.findOne (toLowerCase t) (responses w)) as [d0|] eqn:Ef.
  - assert (Hex : exists d, In d (responses w) /\ trigger d = toLowerCase t).
    { exists d0. now apply findOne_Some. }
    destruct (first_with_trigger _ _ Hex) as (l1 & d & l2 & Hc & Hd & Hl1).
    rewrite Hc, (deleteOne_first _ _ _ _ Hd Hl1). simpl.
    split; [|split]; try discriminate.
    + split; [discriminate|]. intros Hno. exfalso. apply (Hno d); [|exact Hd].
      apply in_or_app. right. now left.
    + intros _. exists l1, d, l2.
      split; [reflexivity|]. split; [exact Hd|]. split; [exact Hl1|].
      split; [reflexivity|]. split; [|split].
      * intros message content.
        exact (list_command toLowerCase message content
                 (mkWorld (l1 ++ l2) (clock w) (network w) (channel w) (console w))).
      * rewrite filter_app. simpl. rewrite Hd, streq_refl.
        rewrite (proj1 (no_trigger_filter _ _) Hl1). simpl.
        rewrite no_trigger_filter, filter_app, (proj1 (no_trigger_filter _ _) Hl1).
        simpl. split.
        -- intros ->. reflexivity.
        -- intros H. injection H as H. now apply length_zero_iff_nil.
      * intros Hnd d' Hd'. rewrite <- Hd. now apply (unique_trigger_removed l1 d l2).
  - rewrite findOne_None in Ef. rewrite (deleteOne_none _ _ Ef). simpl.
    split; [|split].
    + split; [intros _; exact Ef | reflexivity].
    + intros _. apply withResponses_same.
    + intros (d & Hd & E). exfalso. now apply (Ef d).
Qed.

Lemma removeResponse_first_record_witness :
  removeResponse asciiLower (lit "Hello")
    (worldOf [mkDoc (lit "bye") (lit "see you") text 1 None;
              mkDoc (lit "hello") (lit "hi there") text 2 None])
  = (Return (lit "Removed: " ++ quoted "Hello"),
     worldOf [mkDoc (lit "bye") (lit "see you") text 1 None])
  /\ forall d', In d' [mkDoc (lit "bye") (lit "see you") text 1 None] ->
       trigger d' <> lit "hello".
Proof.
  destruct (proj2 (proj2 (removeResponse_first_record asciiLower (lit "Hello")
    (worldOf [mkDoc (lit "bye") (lit "see you") text 1 None;
              mkDoc (lit "hello") (lit "hi there") text 2 None]))))
    as (l1 & d & l2 & Hc & Hd & Hl1 & Hr & _ & Hone & Hu).
  - exists (mkDoc (lit "hello") (lit "hi there") text 2 None).
    split; [right; left; reflexivity | reflexivity].
  - split; [reflexivity|].
    assert (E : l1 ++ l2 = [mkDoc (lit "bye") (lit "see you") text 1 None]).
    { vm_compute in Hr. now injection Hr. }
    rewrite <- E. apply Hone. reflexivity.
Defined.

(** C8. A successful [editResponse] changes one document, the first with
    the lower-cased trigger: its response and type become those of the
    message and its [updatedAt] the current time, its trigger and its
    [createdAt] stay as they were, and so does every other document. *)
Theorem editResponse_frame (toLowerCase : jsstring -> jsstring)
    (message : Message) (t : jsstring) (w : World) (result : jsstring) (w' : World) :
  editResponse toLowerCase message t w = (Return result, w') ->
  exists l1 d l2 d',
    responses w = l1 ++ d :: l2
    /\ responses w' = l1 ++ d' :: l2
    /\ trigger d = toLowerCase t
    /\ (forall x, In x l1 -> trigger x <> toLowerCase t)
    /\ trigger d' = trigger d
    /\ createdAt d' = createdAt d
    /\ updatedAt d' = Some (clock w)
    /\ newResponse message w = (Return (response d', type d'), w)
    /\ w' = withResponses (responses w') w.
Proof.
  intros H.
  destruct (editResponse_cases toLowerCase message t w)
    as [[_ E] | [(_ & _ & E) | (r & ty & Hex & Hr & E)]];
    rewrite E in H; try discriminate.
  injection H as _ <-. apply findOne_exists in Hex.
  destruct (first_with_trigger _ _ Hex) as (l1 & d & l2 & Hc & Hd & Hl1).
  exists l1, d, l2, (setResponse r ty (clock w) d). simpl.
  rewrite Hc at 2. rewrite (updateOne_first _ _ _ _ _ Hd Hl1).
  repeat split; try assumption.
Qed.

Lemma editResponse_frame_witness :
  exists d',
    responses (snd (editResponse asciiLower
                      (userMessage (lit "--edit " ++ quoted "Hello" ++ lit " " ++ quoted "hey"))
                      (lit "Hello")
                      (worldOf [mkDoc (lit "hello") (lit "hi there") text 2 None])))
    = [d']
    /\ trigger d' = lit "hello" /\ createdAt d' = 2 /\ updatedAt d' = Some 1000.
Proof.
  destruct (editResponse_frame asciiLower
              (userMessage (lit "--edit " ++ quoted "Hello" ++ lit " " ++ quoted "hey"))
              (lit "Hello")
              (worldOf [mkDoc (lit "hello") (lit "hi there") text 2 None])
              (updated (lit "Hello") text)
              (worldOf [mkDoc (lit "hello") (lit "hey") text 2 (Some 1000)])
              eq_refl)
    as (l1 & d & l2 & d' & Hc & Hc' & Hd & Hl1 & Ht & Hcr & Hup & _).
  exists (mkDoc (lit "hello") (lit "hey") text 2 (Some 1000)).
  repeat split.
Defined.

(** ** Delivery of the matches *)

Lemma deliver_reply m :
  deliver m = try_catch (send (reply m)) (fun err => log (FailedToSend (trigger m) err)).
Proof.
  unfold deliver, reply. destruct (type m); reflexivity.
Qed.

Lemma attempts_payload ps net : List.map payload (attempts ps net) = ps.
Proof.
  revert net; induction ps as [|p ps IH]; intros net; [reflexivity|].
  destruct net as [|[err|] net]; simpl; now rewrite IH.
Qed.

Lemma failureLog_offline ms : failureLog ms [] = [].
Proof. now destruct ms. Qed.

Lemma forEach_deliver ms w :
  forEach ms deliver w =
  (Return tt,
   mkWorld (responses w) (clock w) (skipn (List.length ms) (network w))
     (channel w ++ attempts (List.map reply ms) (network w))
     (console w ++ failureLog ms (network w))).
Proof.
  revert w; induction ms as [|m ms IH]; intros w.
  - simpl. rewrite !app_nil_r. now destruct w.
  - cbn [forEach]. unfold bind. rewrite deliver_reply.
    unfold try_catch, send, log.
    destruct (network w) as [|[err|] net] eqn:En; rewrite IH; simpl;
      rewrite <- ?app_assoc; try reflexivity.
    now rewrite skipn_nil, failureLog_offline, app_nil_r.
Qed.

(** C9. For every message of a user that is no command and every
    behaviour of the transport, the listener completes normally, sends
    the reply of each match once, in the order of the matches and
    whether or not earlier deliveries were rejected, sends nothing else
    (no error message in particular), logs each rejected delivery on the
    console and leaves the collection as it is. *)
Theorem delivery_failures_isolated (toLowerCase : jsstring -> jsstring)
    (message : Message) (w : World) :
  author_bot message = false ->
  classify (normalizeText (content message)) = PlainText ->
  exists matches w',
    checkMessages toLowerCase (normalizeText (content message)) w = (Return matches, w)
    /\ onMessageCreate toLowerCase message w = (Return tt, w')
    /\ channel w' = channel w ++ attempts (List.map reply matches) (network w)
    /\ List.map payload (channel w') = List.map payload (channel w) ++ List.map reply matches
    /\ console w' =
       console w ++ Received (normalizeText (content message))
                 :: failureLog matches (network w)
    /\ responses w' = responses w.
Proof.
  intros Hbot Hplain.
  eexists. eexists. split; [apply checkMessages_filter|].
  rewrite (onMessageCreate_dispatch toLowerCase message Hbot), Hplain.
  unfold bind at 1, log, try_catch, runCommand, bind.
  rewrite checkMessages_filter, forEach_deliver. simpl.
  split; [reflexivity|]. simpl.
  rewrite map_app, attempts_payload, <- app_assoc. auto.
Qed.

Lemma delivery_failures_isolated_witness :
  channel (snd (onMessageCreate asciiLower (userMessage (lit "Well HELLO, bye"))
                  (mkWorld [mkDoc (lit "hello") (lit "hi there") text 1 None;
                            mkDoc (lit "bye") (lit "http://x/y.png") image 2 None]
                     1000 [Some (lit "Missing Permissions"); None] [] [])))
  = [Failed (Text (lit "hi there")) (lit "Missing Permissions");
     Delivered (Files [lit "http://x/y.png"])].
Proof.
  destruct (delivery_failures_isolated asciiLower (userMessage (lit "Well HELLO, bye"))
              (mkWorld [mkDoc (lit "hello") (lit "hi there") text 1 None;
                        mkDoc (lit "bye") (lit "http://x/y.png") image 2 None]
                 1000 [Some (lit "Missing Permissions"); None] [] [])
              eq_refl eq_refl)
    as (matches & w' & Hm & Hw & Hch & _).
  rewrite Hw. simpl. rewrite Hch.
  vm_compute in Hm. injection Hm as <-. reflexivity.
Defined.

(** ** What one message does to the collection *)

Lemma send_responses p w : responses (snd (send p w)) = responses w.
Proof. unfold send. now destruct (network w) as [|[err|] net]. Qed.

Lemma send_payload p w :
  List.map payload (channel (snd (send p w))) = List.map payload (channel w) ++ [p].
Proof.
  unfold send. destruct (network w) as [|[err|] net]; simpl; now rewrite map_app.
Qed.

Lemma firstQuoted_cases content w :
  ((extractQuotedStrings content = [] \/ exists l, extractQuotedStrings content = [] :: l)
   /\ firstQuoted content w = (Throw InvalidFormat, w))
  \/ (exists t l, t <> [] /\ extractQuotedStrings content = t :: l
                  /\ firstQuoted content w = (Return t, w)).
Proof.
  unfold firstQuoted. destruct (extractQuotedStrings content) as [|[|x t] l].
  - left. auto.
  - left. split; [right; now exists l | reflexivity].
  - right. exists (x :: t), l. repeat split. discriminate.
Qed.

Lemma command_store toLowerCase message content kind w :
  StoreStep toLowerCase (responses w)
    (responses (snd (try_catch (runCommand toLowerCase message content kind)
                       reportError w))).
Proof.
  assert (Hcatch : forall (c : M unit) w0,
             responses (snd (try_catch c reportError w0)) = responses (snd (c w0))).
  { intros c w0. unfold try_catch. destruct (c w0) as [[a|e] w1]; [reflexivity|].
    apply send_responses. }
  rewrite Hcatch. destruct kind; unfold runCommand, bind.
  - rewrite send_responses. constructor.
  - unfold findAll. rewrite send_responses. constructor.
  - destruct (firstQuoted_cases content w) as [[_ ->] | (t & l & Ht & _ & ->)];
      [constructor|].
    destruct (addResponse_cases toLowerCase message t w)
      as [[_ ->] | [(_ & _ & ->) | (r & ty & Hno & _ & ->)]]; try constructor.
    rewrite send_responses. simpl. now constructor.
  - destruct (firstQuoted_cases content w) as [[_ ->] | (t & l & Ht & _ & ->)];
      [constructor|].
    rewrite removeResponse_cases.
    destruct (_ =? 0); [|rewrite send_responses]; simpl; constructor.
  - destruct (firstQuoted_cases content w) as [[_ ->] | (t & l & Ht & _ & ->)];
      [constructor|].
    destruct (editResponse_cases toLowerCase message t w)
      as [[_ ->] | [(_ & _ & ->) | (r & ty & Hex & _ & ->)]]; try constructor.
    rewrite send_responses. simpl. now constructor.
  - rewrite checkMessages_filter, forEach_deliver. constructor.
Qed.

Lemma onMessageCreate_store toLowerCase message w :
  StoreStep toLowerCase (responses w)
    (responses (snd (onMessageCreate toLowerCase message w))).
Proof.
  destruct (author_bot message) eqn:Hbot.
  - unfold onMessageCreate. rewrite Hbot. constructor.
  - rewrite (onMessageCreate_dispatch toLowerCase message Hbot).
    unfold bind at 1, log.
    apply (command_store toLowerCase message (normalizeText (content message))
             (classify (normalizeText (content message)))
             (mkWorld (responses w) (clock w) (network w) (channel w)
                (console w ++ [Received (normalizeText (content message))]))).
Qed.

Lemma deleteOne_subset t c d : In d (fst (Mongo.deleteOne t c)) -> In d c.
Proof.
  induction c as [|d0 c IH]; simpl; [tauto|].
  destruct (streq (trigger d0) t); [now right|].
  destruct (Mongo.deleteOne t c) as [c' n]. simpl in *.
  intros [-> | H]; [now left | right; now apply IH].
Qed.

Lemma updateOne_In t set c d :
  In d (Mongo.updateOne t set c) ->
  In d c \/ exists d0, In d0 c /\ trigger d0 = t /\ d = set d0.
Proof.
  induction c as [|d0 c IH]; simpl; [tauto|].
  destruct (streq (trigger d0) t) eqn:E.
  - apply streq_spec in E. intros [<- | H]; [right; exists d0|]; auto.
  - intros [<- | H]; [auto|]. destruct (IH H) as [H' | (d1 & H1 & E1 & ->)]; [auto|].
    right. exists d1. auto.
Qed.

Lemma updateOne_triggers t r ty now c :
  List.map trigger (Mongo.updateOne t (setResponse r ty now) c) = List.map trigger c.
Proof.
  induction c as [|d0 c IH]; simpl; [reflexivity|].
  destruct (streq (trigger d0) t); simpl; [reflexivity | now rewrite IH].
Qed.

Lemma deleteOne_unique t c :
  NoDup (List.map trigger c) ->
  NoDup (List.map trigger (fst (Mongo.deleteOne t c))).
Proof.
  induction c as [|d0 c IH]; simpl; [auto|]. intros H.
  apply NoDup_cons_iff in H as [Hd0 Hc].
  destruct (streq (trigger d0) t); [exact Hc|].
  pose proof (deleteOne_subset t c) as Hsub.
  destruct (Mongo.deleteOne t c) as [c' n]. simpl in *.
  apply NoDup_cons; [|now apply IH].
  intros Hin. apply Hd0. apply in_map_iff in Hin as (d & E & Hd).
  apply in_map_iff. exists d. auto.
Qed.

(** The triggers of the collection stay unique from one message to the
    next. *)
Lemma StoreStep_unique toLowerCase c c' :
  StoreStep toLowerCase c c' ->
  NoDup (List.map trigger c) -> NoDup (List.map trigger c').
Proof.
  intros Hstep Hnd. destruct Hstep as [|t r ty now Ht Hno|t|t r ty now Ht].
  - exact Hnd.
  - rewrite map_app. simpl. rewrite findOne_None in Hno.
    apply NoDup_app; [exact Hnd | repeat constructor; intros [] |].
    intros a Ha [<- | []]. apply in_map_iff in Ha as (d & E & Hd).
    now apply (Hno d).
  - now apply deleteOne_unique.
  - now rewrite updateOne_triggers.
Qed.

Lemma onMessageCreate_unique toLowerCase message w :
  NoDup (List.map trigger (responses w)) ->
  NoDup (List.map trigger (responses (snd (onMessageCreate toLowerCase message w)))).
Proof.
  apply StoreStep_unique with (toLowerCase := toLowerCase).
  apply onMessageCreate_store.
Qed.

(** Documents that a step brings in have a non-empty trigger, provided
    lower-casing does not empty a string. *)
Lemma StoreStep_nonempty toLowerCase c c' :
  (forall s, toLowerCase s = [] -> s = []) ->
  StoreStep toLowerCase c c' ->
  forall d, In d c' -> In d c \/ trigger d <> [].
Proof.
  intros Hlow Hstep d Hd. destruct Hstep as [|t r ty now Ht Hno|t|t r ty now Ht].
  - now left.
  - apply in_app_or in Hd as [Hd | [<- | []]]; [now left|].
    right. simpl. intros E. now apply Ht, Hlow.
  - left. now apply (deleteOne_subset (toLowerCase t)).
  - apply updateOne_In in Hd as [Hd | (d0 & Hd0 & E & ->)]; [now left|].
    right. simpl. rewrite E. intros E'. now apply Ht, Hlow.
Qed.

Lemma matchAll_nonempty s : Forall (fun run => run <> []) (matchAll s).
Proof.
  remember (List.length s) as n eqn:Hn. revert s Hn.
  induction n as [n IH] using lt_wf_ind. intros s ->.
  rewrite matchAll_step. destruct (match_at s) as [[group1 rest]|] eqn:E.
  - constructor.
    + unfold match_at in E. destruct s as [|q0 s1]; [discriminate|].
      destruct (isQuote q0); [|discriminate].
      destruct (span _ s1) as [[|x run] [|q' rest']]; try discriminate.
      destruct (isQuote q'); [|discriminate]. injection E as <- _. discriminate.
    + apply match_at_shorter in E. now apply (IH (List.length rest)).
  - destruct s as [|c s']; [constructor|].
    apply (IH (List.length s')); [simpl; lia | reflexivity].
Qed.

Lemma asciiLower_nonempty s : asciiLower s = [] -> s = [].
Proof. unfold asciiLower. apply map_eq_nil. Qed.

Lemma add_without_trigger toLowerCase message w :
  author_bot message = false ->
  startsWith (normalizeText (content message)) (lit "--add") = true ->
  (extractQuotedStrings (normalizeText (content message)) = []
   \/ exists l, extractQuotedStrings (normalizeText (content message)) = [] :: l) ->
  responses (snd (onMessageCreate toLowerCase message w)) = responses w
  /\ List.map payload (channel (snd (onMessageCreate toLowerCase message w)))
     = List.map payload (channel w) ++ [Text (lit "Error: " ++ errorMessage InvalidFormat)].
Proof.
  intros Hbot Hadd Hbad.
  rewrite (onMessageCreate_dispatch toLowerCase message Hbot).
  apply classify_prefix in Hadd. rewrite Hadd.
  unfold bind at 1, log, try_catch, runCommand, bind.
  match goal with
  | |- context [firstQuoted ?c ?w0] =>
      destruct (firstQuoted_cases c w0) as [[_ ->] | (t & l & Ht & E & _)]
  end.
  - unfold reportError. rewrite send_responses, send_payload. auto.
  - exfalso. destruct Hbad as [Hbad | [l' Hbad]]; rewrite Hbad in E.
    + discriminate.
    + injection E as <- _. contradiction.
Qed.

(** C10. Provided lower-casing empties no string: the matches of the
    regular expression are runs of at least one character; an add command
    whose first quoted string is missing or normalizes to the empty
    string is answered with the error [Invalid format] and writes nothing
    to the collection; and after any message every stored document
    either was stored before or has a non-empty trigger, so that a
    collection without empty triggers stays so. *)
Theorem stored_triggers_nonempty (toLowerCase : jsstring -> jsstring)
    (message : Message) (w : World) :
  (forall s, toLowerCase s = [] -> s = []) ->
  Forall (fun run => run <> []) (matchAll (normalizeText (content message)))
  /\ (author_bot message = false ->
      startsWith (normalizeText (content message)) (lit "--add") = true ->
      (extractQuotedStrings (normalizeText (content message)) = []
       \/ exists l, extractQuotedStrings (normalizeText (content message)) = [] :: l) ->
      responses (snd (onMessageCreate toLowerCase message w)) = responses w
      /\ List.map payload (channel (snd (onMessageCreate toLowerCase message w)))
         = List.map payload (channel w) ++ [Text (lit "Error: Invalid format")])
  /\ (forall d, In d (responses (snd (onMessageCreate toLowerCase message w))) ->
        In d (responses w) \/ trigger d <> [])
  /\ (Forall (fun d => trigger d <> []) (responses w) ->
      Forall (fun d => trigger d <> [])
        (responses (snd (onMessageCreate toLowerCase message w)))).
Proof.
  intros Hlow.
  assert (Hstep : forall d, In d (responses (snd (onMessageCreate toLowerCase message w))) ->
                    In d (responses w) \/ trigger d <> []).
  { apply (StoreStep_nonempty toLowerCase); [exact Hlow | apply onMessageCreate_store]. }
  split; [apply matchAll_nonempty|]. split; [|split].
  - apply add_without_trigger.
  - exact Hstep.
  - rewrite !Forall_forall. intros Hinv d Hd.
    destruct (Hstep d Hd) as [Hold | Hne]; auto.
Qed.

Lemma stored_triggers_nonempty_witness :
  (forall s, asciiLower s = [] -> s = [])
  /\ responses (snd (onMessageCreate asciiLower
                       (userMessage (lit "--add " ++ quoted " " ++ lit " " ++ quoted "hi"))
                       (worldOf [])))
     = [].
Proof.
  split; [exact asciiLower_nonempty|].
  apply (proj1 (proj2 (stored_triggers_nonempty asciiLower
    (userMessage (lit "--add " ++ quoted " " ++ lit " " ++ quoted "hi"))
    (worldOf []) asciiLower_nonempty))).
  - reflexivity.
  - reflexivity.
  - right. exists [lit "hi"]. reflexivity.
Defined.

(** ** The scenarios of the specification *)

(** Add, match, remove, no match. *)
Example add_match_remove :
  channel (onMessages asciiLower
             [userMessage (lit "--add " ++ quoted "hello" ++ lit " " ++ quoted "hi there");
              userMessage (lit "well hello friend");
              userMessage (lit "--remove " ++ quoted "hello");
              userMessage (lit "well hello friend")]
             (worldOf []))
  = [Delivered (Text (added (lit "hello") text));
     Delivered (Text (lit "hi there"));
     Delivered (Text (removed (lit "hello")))].
Proof. reflexivity. Qed.

(** Triggers and messages are matched after lower-casing. *)
Example match_ignores_case :
  channel (onMessages asciiLower
             [userMessage (lit "--add " ++ quoted "Hello" ++ lit " " ++ quoted "x");
              userMessage (lit "HELLO")]
             (worldOf []))
  = [Delivered (Text (added (lit "Hello") text)); Delivered (Text (lit "x"))].
Proof. reflexivity. Qed.

(** An add command typed with smart quotes: the listener finds the
    trigger in the normalized text, [addResponse] looks for the two quoted
    strings in the raw text and finds none. *)
Example add_with_smart_quotes :
  onMessages asciiLower
    [userMessage (lit "--add " ++ [8220; 97; 8221] ++ lit " " ++ [8220; 98; 8221])]
    (worldOf [])
  = mkWorld [] 1000 []
      [Delivered (Text (lit "Error: Invalid format"))]
      [Received (lit "--add " ++ quoted "a" ++ lit " " ++ quoted "b")].
Proof. reflexivity. Qed.

(** * Further properties of the code *)

(** ** The normalizer, continued *)

Lemma trimStart_snoc l c :
  isWhiteSpace c = false -> trimStart (l ++ [c]) = trimStart l ++ [c].
Proof.
  intros Hc. induction l as [|x l IH]; simpl.
  - now rewrite Hc.
  - destruct (isWhiteSpace x); [exact IH | reflexivity].
Qed.

Lemma startsWithSpace_trimStart l : startsWithSpace (trimStart l) = false.
Proof.
  induction l as [|x l IH]; simpl; [reflexivity|].
  destruct (isWhiteSpace x) eqn:E; [exact IH | exact E].
Qed.

Lemma trimEnd_keeps_start s :
  startsWithSpace s = false -> startsWithSpace (trimEnd s) = false.
Proof.
  destruct s as [|c s]; [reflexivity|]. simpl. intros Hc.
  unfold trimEnd. simpl. rewrite (trimStart_snoc _ _ Hc), rev_app_distr.
  simpl. exact Hc.
Qed.

Lemma trim_trimmed s :
  startsWithSpace (trim s) = false /\ endsWithSpace (trim s) = false.
Proof.
  split.
  - apply trimEnd_keeps_start, startsWithSpace_trimStart.
  - unfold endsWithSpace, trim, trimEnd. rewrite rev_involutive.
    apply startsWithSpace_trimStart.
Qed.

Lemma trim_idempotent s : trim (trim s) = trim s.
Proof. apply trim_fixed, trim_trimmed. Qed.

Lemma trimStart_Forall (P : N -> Prop) s : Forall P s -> Forall P (trimStart s).
Proof.
  induction 1 as [|c s Hc Hs IH]; simpl; [constructor|].
  destruct (isWhiteSpace c); [exact IH | now constructor].
Qed.

Lemma trim_Forall (P : N -> Prop) s : Forall P s -> Forall P (trim s).
Proof.
  intros H. unfold trim, trimEnd.
  apply Forall_rev, trimStart_Forall, Forall_rev, trimStart_Forall, H.
Qed.

Lemma replaceAll_Forall (P : N -> Prop) p r s :
  Forall P r -> Forall (fun c => p c = false -> P c) s ->
  Forall P (replaceAll p r s).
Proof.
  intros Hr Hs. unfold replaceAll. induction Hs as [|c s Hc _ IH]; simpl.
  - constructor.
  - apply Forall_app. split; [|exact IH].
    destruct (p c); [exact Hr | constructor; auto].
Qed.

Lemma replaced_not_special text :
  Forall (fun c => isSpecial c = false)
    (replaceAll isDash (lit "--")
       (replaceAll isSmartDouble [dquote]
          (replaceAll isSmartSingle [squote] text))).
Proof.
  apply replaceAll_Forall; [repeat constructor|].
  apply replaceAll_Forall with
    (P := fun c => isDash c = false -> isSpecial c = false); [repeat constructor|].
  apply replaceAll_Forall with
    (P := fun c => isSmartDouble c = false -> isDash c = false -> isSpecial c = false);
    [repeat constructor|].
  apply Forall_forall. intros c _ H1 H2 H3.
  unfold isSpecial, isSmartQuote. now rewrite H1, H2, H3.
Qed.

Lemma not_special_fixed s :
  Forall (fun c => isSpecial c = false) s ->
  replaceAll isDash (lit "--")
    (replaceAll isSmartDouble [dquote]
       (replaceAll isSmartSingle [squote] s)) = s.
Proof.
  intros H.
  assert (Hp : forall p : N -> bool,
             (forall c, isSpecial c = false -> p c = false) ->
             forallb (fun c => negb (p c)) s = true).
  { intros p Hp. apply forallb_forall. intros c Hc.
    rewrite Forall_forall in H. now rewrite (Hp c (H c Hc)). }
  rewrite (replaceAll_none isSmartSingle), (replaceAll_none isSmartDouble),
    (replaceAll_none isDash); try reflexivity; apply Hp; intros c;
    unfold isSpecial, isSmartQuote; intros Hc;
    apply orb_false_iff in Hc as [Hq Hd]; apply orb_false_iff in Hq as [H1 H2];
    assumption.
Qed.

(** X1. The normal form of a text holds no smart quote and no dash
    character, and neither starts nor ends with white space. *)
Theorem normalizeText_canonical (text : jsstring) :
  Forall (fun c => isSmartQuote c = false /\ isDash c = false) (normalizeText text)
  /\ startsWithSpace (normalizeText text) = false
  /\ endsWithSpace (normalizeText text) = false.
Proof.
  unfold normalizeText. split; [|apply trim_trimmed].
  apply trim_Forall.
  eapply Forall_impl; [|apply replaced_not_special].
  intros c Hc. now apply orb_false_iff in Hc.
Qed.

(** X2. Normalizing twice is normalizing once. *)
Theorem normalizeText_idempotent (text : jsstring) :
  normalizeText (normalizeText text) = normalizeText text.
Proof.
  unfold normalizeText at 1.
  rewrite not_special_fixed.
  - unfold normalizeText. apply trim_idempotent.
  - unfold normalizeText. apply trim_Forall, replaced_not_special.
Qed.

Lemma trimStart_app_solid a b :
  Forall (fun c => isWhiteSpace c = false) b ->
  trimStart (a ++ b) = trimStart a ++ b.
Proof.
  intros Hb. induction a as [|x a IH]; simpl.
  - destruct Hb as [|c b Hc _]; simpl; [reflexivity | now rewrite Hc].
  - destruct (isWhiteSpace x); [exact IH | reflexivity].
Qed.

Lemma trim_solid_prefix p x :
  p <> [] -> Forall (fun c => isWhiteSpace c = false) p ->
  trim (p ++ x) = p ++ trimEnd x.
Proof.
  intros Hne Hp. unfold trim.
  assert (E : trimStart (p ++ x) = p ++ x).
  { destruct Hp as [|c p Hc _]; [contradiction|]. simpl. now rewrite Hc. }
  rewrite E. unfold trimEnd. rewrite rev_app_distr, trimStart_app_solid.
  - now rewrite rev_app_distr, rev_involutive.
  - now apply Forall_rev.
Qed.

Lemma replaceAll_app p r a b :
  replaceAll p r (a ++ b) = replaceAll p r a ++ replaceAll p r b.
Proof. unfold replaceAll. apply flat_map_app. Qed.

Lemma dash_word_normal d word rest :
  isDash d = true ->
  Forall (fun c => isSpecial c = false) word ->
  Forall (fun c => isWhiteSpace c = false) word ->
  startsWith (normalizeText (d :: word ++ rest)) (lit "--" ++ word) = true.
Proof.
  intros Hd Hword Hsolid. apply startsWith_spec.
  assert (H1 : isSmartSingle d = false /\ isSmartDouble d = false).
  { unfold isDash, isSmartSingle, isSmartDouble in *.
    apply orb_true_iff in Hd as [Hd | Hd]; apply N.eqb_eq in Hd; subst d;
      split; reflexivity. }
  destruct H1 as [Hs Hdd].
  unfold normalizeText.
  change (d :: word ++ rest) with ([d] ++ word ++ rest).
  rewrite !replaceAll_app, (not_special_fixed word Hword).
  assert (E : replaceAll isDash (lit "--")
                (replaceAll isSmartDouble [dquote]
                   (replaceAll isSmartSingle [squote] [d])) = lit "--").
  { unfold replaceAll. simpl. rewrite Hs. simpl. rewrite Hdd. simpl.
    now rewrite Hd. }
  rewrite E, app_assoc, trim_solid_prefix.
  - eexists. reflexivity.
  - discriminate.
  - apply Forall_app. split; [repeat constructor | exact Hsolid].
Qed.

(** X3. A command typed with an en or em dash in place of the two
    hyphens is the command: the normalizer turns the dash into the two
    hyphens before the listener looks for the prefixes. *)
Theorem dash_commands (d : N) (rest : jsstring) :
  isDash d = true ->
  classify (normalizeText (d :: lit "help" ++ rest)) = CmdHelp
  /\ classify (normalizeText (d :: lit "list" ++ rest)) = CmdList
  /\ classify (normalizeText (d :: lit "add" ++ rest)) = CmdAdd
  /\ classify (normalizeText (d :: lit "remove" ++ rest)) = CmdRemove
  /\ classify (normalizeText (d :: lit "edit" ++ rest)) = CmdEdit.
Proof.
  intros Hd.
  assert (H : forall word,
             forallb (fun c => negb (isSpecial c) && negb (isWhiteSpace c)) word = true ->
             startsWith (normalizeText (d :: word ++ rest)) (lit "--" ++ word) = true).
  { intros word Hw. rewrite forallb_forall in Hw.
    apply dash_word_normal; [exact Hd | |]; apply Forall_forall; intros c Hc;
      specialize (Hw c Hc); apply andb_true_iff in Hw as [H1 H2];
      now apply negb_true_iff. }
  repeat split; apply classify_prefix; apply H; reflexivity.
Qed.

Lemma dash_commands_witness :
  isDash 8212 = true
  /\ classify (normalizeText (8212 :: lit "add " ++ quoted "hello" ++ lit " " ++ quoted "hi"))
     = CmdAdd.
Proof.
  split; [reflexivity|].
  apply (proj1 (proj2 (proj2
    (dash_commands 8212 (lit " " ++ quoted "hello" ++ lit " " ++ quoted "hi") eq_refl)))).
Defined.

(** ** The extractor, continued *)

Lemma filter_unquoted g :
  Forall (fun x => isQuote x = false) g -> filter isQuote g = [].
Proof.
  induction 1 as [|c g Hc _ IH]; simpl; [reflexivity|]. now rewrite Hc.
Qed.

(** X4. Each extracted string uses up two quote characters of the text:
    there are at most half as many strings as quote characters. *)
Theorem extractQuotedStrings_count (text : jsstring) :
  (2 * List.length (extractQuotedStrings text)
   <= List.length (filter isQuote text))%nat.
Proof.
  unfold extractQuotedStrings. rewrite length_map.
  remember (List.length text) as n eqn:Hn. revert text Hn.
  induction n as [n IH] using lt_wf_ind. intros s ->.
  rewrite matchAll_step. destruct (match_at s) as [[group1 rest]|] eqn:E.
  - pose proof (match_at_shorter _ _ _ E) as Hlt.
    apply match_at_spec in E as (q1 & q2 & -> & H1 & _ & Hrun & H2).
    specialize (IH _ Hlt rest eq_refl).
    simpl. rewrite H1, filter_app, (filter_unquoted _ Hrun). simpl. rewrite H2.
    simpl. lia.
  - destruct s as [|c s']; [simpl; lia|].
    specialize (IH (List.length s') ltac:(simpl; lia) s' eq_refl).
    simpl. destruct (isQuote c); simpl; lia.
Qed.

Lemma matchAll_runs (P : N -> Prop) s :
  Forall P s ->
  Forall (fun g => Forall (fun c => isQuote c = false /\ P c) g) (matchAll s).
Proof.
  remember (List.length s) as n eqn:Hn. revert s Hn.
  induction n as [n IH] using lt_wf_ind. intros s -> Hs.
  rewrite matchAll_step. destruct (match_at s) as [[group1 rest]|] eqn:E.
  - pose proof (match_at_shorter _ _ _ E) as Hlt.
    apply match_at_spec in E as (q1 & q2 & -> & _ & _ & Hrun & _).
    inversion Hs as [|? ? _ Hs1]; subst.
    apply Forall_app in Hs1 as [Hg Hs2]. inversion Hs2 as [|? ? _ Hrest]; subst.
    constructor.
    + rewrite Forall_forall in *. auto.
    + now apply (IH _ Hlt).
  - destruct s as [|c s']; [constructor|].
    inversion Hs; subst. apply (IH (List.length s')); simpl; auto.
Qed.

(** X5. The strings the listener extracts from the normalized text of a
    message contain no quote character, plain or smart, and neither
    start nor end with white space. *)
Theorem extracted_from_normal_text (text : jsstring) :
  Forall (fun t => Forall (fun c => isDelimiter c = false) t
                   /\ startsWithSpace t = false /\ endsWithSpace t = false)
    (extractQuotedStrings (normalizeText text)).
Proof.
  unfold extractQuotedStrings. apply Forall_map.
  assert (Hn : Forall (fun c => isSpecial c = false) (normalizeText text)).
  { unfold normalizeText. apply trim_Forall, replaced_not_special. }
  eapply Forall_impl; [|apply (matchAll_runs _ _ Hn)].
  intros g Hg. split; [|unfold normalizeText; apply trim_trimmed].
  unfold normalizeText. rewrite not_special_fixed.
  - apply trim_Forall. eapply Forall_impl; [|exact Hg].
    intros c [Hq Hsp]. rewrite delimiter_plain; [exact Hq|].
    unfold isSpecial in Hsp. now apply orb_false_iff in Hsp.
  - eapply Forall_impl; [|exact Hg]. now intros c [_ Hsp].
Qed.

(** ** The commands, continued *)

Lemma newResponse_world message w w0 :
  newResponse message w = (fst (newResponse message w0), w).
Proof.
  unfold newResponse. destruct (attachments message); [|reflexivity].
  destruct (negb _); reflexivity.
Qed.

Lemma withResponses_twice c1 c2 w :
  withResponses c1 (withResponses c2 w) = withResponses c1 w.
Proof. reflexivity. Qed.

(** X6. When the message carries an attachment, add and edit take the
    response from the first attachment whatever the text holds: the
    response is its URL, and the type is [image] exactly when its content
    type is present and starts with [image/], [file] otherwise. *)
Theorem attachment_response (toLowerCase : jsstring -> jsstring)
    (message : Message) (attachment : Attachment) (others : list Attachment)
    (t : jsstring) (w : World) :
  attachments message = attachment :: others ->
  ((forall d, In d (responses w) -> trigger d <> toLowerCase t) ->
     addResponse toLowerCase message t w =
     (Return (added t (attachmentType attachment)),
      withResponses
        (responses w ++
         [mkDoc (toLowerCase t) (url attachment) (attachmentType attachment)
            (clock w) None]) w))
  /\ ((exists d, In d (responses w) /\ trigger d = toLowerCase t) ->
     editResponse toLowerCase message t w =
     (Return (updated t (attachmentType attachment)),
      withResponses
        (Mongo.updateOne (toLowerCase t)
           (setResponse (url attachment) (attachmentType attachment) (clock w))
           (responses w)) w))
  /\ (attachmentType attachment = image <->
      exists ct, contentType attachment = Some ct
                 /\ startsWith ct (lit "image/") = true)
  /\ (attachmentType attachment <> image -> attachmentType attachment = file).
Proof.
  intros Hatt. split; [|split; [|split]].
  - intros Hno. apply findOne_None in Hno.
    unfold addResponse, bind, findOne, newResponse. now rewrite Hno, Hatt.
  - intros Hex. apply findOne_exists in Hex.
    unfold editResponse, bind, findOne, newResponse.
    destruct (Mongo.findOne _ _); [|contradiction]. now rewrite Hatt.
  - unfold attachmentType. destruct (contentType attachment) as [ct|].
    + destruct (startsWith ct (lit "image/")) eqn:E.
      * split; [intros _; now exists ct | reflexivity].
      * split; [discriminate|]. intros (ct' & H & H'). injection H as <-. congruence.
    + split; [discriminate|]. intros (ct & H & _). discriminate.
  - unfold attachmentType. destruct (contentType attachment) as [ct|]; [|reflexivity].
    destruct (startsWith ct (lit "image/")); [contradiction | reflexivity].
Qed.

Lemma attachment_response_witness :
  addResponse asciiLower
    (mkMessage false (lit "--add " ++ quoted "Cat")
       [mkAttachment (lit "https://cdn/cat.png") (Some (lit "image/png"))])
    (lit "Cat") (worldOf [])
  = (Return (added (lit "Cat") image),
     worldOf [mkDoc (lit "cat") (lit "https://cdn/cat.png") image 1000 None]).
Proof.
  apply (proj1 (attachment_response asciiLower
    (mkMessage false (lit "--add " ++ quoted "Cat")
       [mkAttachment (lit "https://cdn/cat.png") (Some (lit "image/png"))])
    (mkAttachment (lit "https://cdn/cat.png") (Some (lit "image/png"))) []
    (lit "Cat") (worldOf []) eq_refl)).
  intros d [].
Defined.

(** X7. Removing a trigger right after it was added gives back the world
    there was before the add; the two triggers need only agree after
    lower-casing. *)
Theorem add_then_remove (toLowerCase : jsstring -> jsstring)
    (message : Message) (t t2 : jsstring) (w : World) (result : jsstring) (w1 : World) :
  addResponse toLowerCase message t w = (Return result, w1) ->
  toLowerCase t2 = toLowerCase t ->
  removeResponse toLowerCase t2 w1 = (Return (removed t2), w).
Proof.
  intros Hadd Hlow.
  destruct (addResponse_cases toLowerCase message t w)
    as [[_ E] | [(_ & _ & E) | (r & ty & Hno & _ & E)]];
    rewrite E in Hadd; try discriminate.
  injection Hadd as _ <-. rewrite removeResponse_cases, Hlow. simpl.
  rewrite findOne_None in Hno.
  rewrite (deleteOne_first (toLowerCase t) (responses w)
             (mkDoc (toLowerCase t) r ty (clock w) None) [] eq_refl Hno).
  simpl. rewrite app_nil_r. now destruct w.
Qed.

Lemma add_then_remove_witness :
  removeResponse asciiLower (lit "HELLO")
    (worldOf [mkDoc (lit "bye") (lit "see you") text 1 None;
              mkDoc (lit "hello") (lit "hi there") text 1000 None])
  = (Return (removed (lit "HELLO")),
     worldOf [mkDoc (lit "bye") (lit "see you") text 1 None]).
Proof.
  apply (add_then_remove asciiLower
           (userMessage (lit "--add " ++ quoted "Hello" ++ lit " " ++ quoted "hi there"))
           (lit "Hello") (lit "HELLO")
           (worldOf [mkDoc (lit "bye") (lit "see you") text 1 None])
           (added (lit "Hello") text)); reflexivity.
Defined.

Lemma updateOne_createdAt t r ty now c :
  List.map createdAt (Mongo.updateOne t (setResponse r ty now) c) = List.map createdAt c.
Proof.
  induction c as [|d0 c IH]; simpl; [reflexivity|].
  destruct (streq (trigger d0) t); simpl; [reflexivity | now rewrite IH].
Qed.

(** X8. Whatever its outcome, an edit leaves the triggers and the
    creation times of the collection as they were, document by document:
    it never adds, removes or reorders documents. *)
Theorem editResponse_keeps_triggers (toLowerCase : jsstring -> jsstring)
    (message : Message) (t : jsstring) (w : World) :
  List.map trigger (responses (snd (editResponse toLowerCase message t w)))
  = List.map trigger (responses w)
  /\ List.map createdAt (responses (snd (editResponse toLowerCase message t w)))
     = List.map createdAt (responses w).
Proof.
  destruct (editResponse_cases toLowerCase message t w)
    as [[_ ->] | [(_ & _ & ->) | (r & ty & _ & _ & ->)]]; simpl; auto.
  split; [apply updateOne_triggers | apply updateOne_createdAt].
Qed.

(** X9. An add or an edit without attachment whose raw message text
    holds no plain quote character never succeeds and leaves the world as
    it is. *)
Theorem text_command_needs_plain_quotes (toLowerCase : jsstring -> jsstring)
    (message : Message) (t : jsstring) (w : World) :
  attachments message = [] ->
  Forall (fun c => isQuote c = false) (content message) ->
  (exists e, addResponse toLowerCase message t w = (Throw e, w))
  /\ (exists e, editResponse toLowerCase message t w = (Throw e, w)).
Proof.
  intros Hatt Hq.
  assert (Hnew : newResponse message w = (Throw InvalidFormat, w)).
  { rewrite (newResponse_text message w Hatt).
    unfold extractQuotedStrings. now rewrite (matchAll_unquoted _ Hq). }
  split.
  - destruct (addResponse_cases toLowerCase message t w)
      as [[_ ->] | [(_ & _ & ->) | (r & ty & _ & Hr & _)]]; eauto.
    rewrite Hnew in Hr. discriminate.
  - destruct (editResponse_cases toLowerCase message t w)
      as [[_ ->] | [(_ & _ & ->) | (r & ty & _ & Hr & _)]]; eauto.
    rewrite Hnew in Hr. discriminate.
Qed.

Lemma text_command_needs_plain_quotes_witness :
  exists e,
    addResponse asciiLower
      (userMessage (lit "--add " ++ [8220; 97; 8221] ++ lit " " ++ [8220; 98; 8221]))
      (lit "a") (worldOf [])
    = (Throw e, worldOf []).
Proof.
  apply (proj1 (text_command_needs_plain_quotes asciiLower
    (userMessage (lit "--add " ++ [8220; 97; 8221] ++ lit " " ++ [8220; 98; 8221]))
    (lit "a") (worldOf []) eq_refl ltac:(repeat constructor))).
Defined.

(** ** The listener, continued *)

Lemma catch_responses (c : M unit) w :
  responses (snd (try_catch c reportError w)) = responses (snd (c w)).
Proof.
  unfold try_catch. destruct (c w) as [[a|e] w1]; [reflexivity|].
  apply send_responses.
Qed.

(** X10. Messages of bots, the help and list commands and plain text
    never write to the collection. *)
Theorem read_only_messages (toLowerCase : jsstring -> jsstring)
    (message : Message) (w : World) :
  author_bot message = true
  \/ classify (normalizeText (content message)) = CmdHelp
  \/ classify (normalizeText (content message)) = CmdList
  \/ classify (normalizeText (content message)) = PlainText ->
  responses (snd (onMessageCreate toLowerCase message w)) = responses w.
Proof.
  intros H. destruct (author_bot message) eqn:Hbot.
  - unfold onMessageCreate. now rewrite Hbot.
  - rewrite (onMessageCreate_dispatch toLowerCase message Hbot).
    unfold bind at 1, log. rewrite catch_responses.
    destruct H as [H | [-> | [-> | ->]]]; [discriminate| | |];
      unfold runCommand, bind.
    + now rewrite send_responses.
    + unfold findAll. now rewrite send_responses.
    + now rewrite checkMessages_filter, forEach_deliver.
Qed.

Lemma read_only_messages_witness :
  responses (snd (onMessageCreate asciiLower (userMessage (lit "--list"))
                    (worldOf [mkDoc (lit "hello") (lit "hi there") text 1 None])))
  = [mkDoc (lit "hello") (lit "hi there") text 1 None].
Proof.
  apply (read_only_messages asciiLower (userMessage (lit "--list"))
           (worldOf [mkDoc (lit "hello") (lit "hi there") text 1 None])).
  right. right. left. reflexivity.
Defined.

Lemma firstQuoted_first content t l w :
  extractQuotedStrings content = t :: l -> t <> [] ->
  firstQuoted content w = (Return t, w).
Proof.
  intros E Ht. unfold firstQuoted. rewrite E. destruct t; [contradiction | reflexivity].
Qed.

Lemma addResponse_success toLowerCase message t w r ty :
  (forall d, In d (responses w) -> trigger d <> toLowerCase t) ->
  fst (newResponse message w) = Return (r, ty) ->
  addResponse toLowerCase message t w =
  (Return (added t ty),
   withResponses (responses w ++ [mkDoc (toLowerCase t) r ty (clock w) None]) w).
Proof.
  intros Hno Hnew. apply findOne_None in Hno.
  unfold addResponse, bind, findOne. rewrite Hno.
  rewrite (newResponse_world message w w), Hnew. reflexivity.
Qed.

(** X11. An add command that passes its checks stores the document
    before it confirms: when the transport rejects the confirmation, the
    document stays stored and the listener tries to send the transport's
    error message to the chat instead. *)
Theorem add_command_not_rolled_back (toLowerCase : jsstring -> jsstring)
    (message : Message) (w : World) (t : jsstring) (l : list jsstring)
    (r : jsstring) (ty : ResponseType) :
  author_bot message = false ->
  startsWith (normalizeText (content message)) (lit "--add") = true ->
  extractQuotedStrings (normalizeText (content message)) = t :: l ->
  t <> [] ->
  (forall d, In d (responses w) -> trigger d <> toLowerCase t) ->
  fst (newResponse message w) = Return (r, ty) ->
  responses (snd (onMessageCreate toLowerCase message w))
  = responses w ++ [mkDoc (toLowerCase t) r ty (clock w) None]
  /\ channel (snd (onMessageCreate toLowerCase message w))
     = channel w ++
       match network w with
       | Some err :: net =>
           [Failed (Text (added t ty)) err; attempt (Text (lit "Error: " ++ err)) net]
       | _ => [Delivered (Text (added t ty))]
       end.
Proof.
  intros Hbot Hadd Hq Ht Hno Hnew.
  rewrite (onMessageCreate_dispatch toLowerCase message Hbot).
  apply classify_prefix in Hadd. rewrite Hadd.
  unfold bind at 1, log, try_catch, runCommand, bind.
  rewrite (firstQuoted_first _ _ _ _ Hq Ht).
  rewrite (addResponse_success toLowerCase message t _ r ty); simpl;
    [|exact Hno | rewrite (newResponse_world message _ w); exact Hnew].
  unfold send, reportError, send. simpl.
  destruct (network w) as [|[err|] net]; simpl; auto.
  destruct net as [|[err'|] net']; simpl; rewrite <- app_assoc; auto.
Qed.

Lemma add_command_not_rolled_back_witness :
  onMessages asciiLower
    [userMessage (lit "--add " ++ quoted "Hello" ++ lit " " ++ quoted "hi there")]
    (mkWorld [] 1000 [Some (lit "Missing Access")] [] [])
  = mkWorld [mkDoc (lit "hello") (lit "hi there") text 1000 None] 1000 []
      [Failed (Text (added (lit "Hello") text)) (lit "Missing Access");
       Delivered (Text (lit "Error: Missing Access"))]
      [Received (lit "--add " ++ quoted "Hello" ++ lit " " ++ quoted "hi there")].
Proof.
  pose proof (add_command_not_rolled_back asciiLower
    (userMessage (lit "--add " ++ quoted "Hello" ++ lit " " ++ quoted "hi there"))
    (mkWorld [] 1000 [Some (lit "Missing Access")] [] [])
    (lit "Hello") [lit "hi there"] (lit "hi there") text
    eq_refl eq_refl eq_refl ltac:(discriminate) ltac:(intros d []) eq_refl) as [Hr Hc].
  simpl onMessages.
  destruct (snd (onMessageCreate _ _ _)) as [c k n ch co] eqn:E.
  simpl in Hr, Hc. subst c ch.
  vm_compute in E. injection E as <- <- <-. reflexivity.
Defined.

(** X12. The errors of the commands reach the chat and write nothing:
    an add command for a stored trigger is answered with the text
    [Error: Trigger already exists], a remove or edit command for a
    trigger that is not stored with [Error: Trigger not found]; in both
    cases the collection stays as it is. *)
Theorem command_errors_reported (toLowerCase : jsstring -> jsstring)
    (message : Message) (w : World) (t : jsstring) (l : list jsstring) :
  author_bot message = false ->
  extractQuotedStrings (normalizeText (content message)) = t :: l ->
  t <> [] ->
  (classify (normalizeText (content message)) = CmdAdd ->
   (exists d, In d (responses w) /\ trigger d = toLowerCase t) ->
   responses (snd (onMessageCreate toLowerCase message w)) = responses w
   /\ List.map payload (channel (snd (onMessageCreate toLowerCase message w)))
      = List.map payload (channel w) ++ [Text (lit "Error: Trigger already exists")])
  /\ (classify (normalizeText (content message)) = CmdRemove
      \/ classify (normalizeText (content message)) = CmdEdit ->
      (forall d, In d (responses w) -> trigger d <> toLowerCase t) ->
      responses (snd (onMessageCreate toLowerCase message w)) = responses w
      /\ List.map payload (channel (snd (onMessageCreate toLowerCase message w)))
         = List.map payload (channel w) ++ [Text (lit "Error: Trigger not found")]).
Proof.
  intros Hbot Hq Ht.
  rewrite (onMessageCreate_dispatch toLowerCase message Hbot). split.
  - intros -> Hex. apply findOne_exists in Hex.
    unfold bind at 1, log, try_catch, runCommand, bind.
    rewrite (firstQuoted_first _ _ _ _ Hq Ht).
    match goal with
    | |- context [addResponse toLowerCase message t ?w0] =>
        destruct (addResponse_cases toLowerCase message t w0)
          as [[_ ->] | [(Hno & _) | (r & ty & Hno & _)]]; [|contradiction..]
    end.
    unfold reportError. now rewrite send_responses, send_payload.
  - intros Hk Hno. unfold bind at 1, log, try_catch.
    destruct Hk as [-> | ->]; unfold runCommand, bind;
      rewrite (firstQuoted_first _ _ _ _ Hq Ht).
    + rewrite removeResponse_cases. simpl.
      rewrite (deleteOne_none _ _ Hno). simpl.
      unfold reportError. now rewrite send_responses, send_payload.
    + apply findOne_None in Hno.
      match goal with
      | |- context [editResponse toLowerCase message t ?w0] =>
          destruct (editResponse_cases toLowerCase message t w0)
            as [[_ ->] | [(Hex & _) | (r & ty & Hex & _)]]; [|contradiction..]
      end.
      unfold reportError. now rewrite send_responses, send_payload.
Qed.

Lemma command_errors_reported_witness :
  List.map payload
    (channel (snd (onMessageCreate asciiLower (userMessage (lit "--remove " ++ quoted "Hello"))
                     (worldOf [mkDoc (lit "bye") (lit "see you") text 1 None]))))
  = [Text (lit "Error: Trigger not found")].
Proof.
  apply (proj2 (command_errors_reported asciiLower
    (userMessage (lit "--remove " ++ quoted "Hello"))
    (worldOf [mkDoc (lit "bye") (lit "see you") text 1 None])
    (lit "Hello") [] eq_refl eq_refl ltac:(discriminate))).
  - left. reflexivity.
  - intros d [<- | []]. vm_compute. discriminate.
Defined.

Lemma send_outcome p w :
  fst (send p w) = Return tt
  \/ exists msg, fst (send p w) = Throw (DeliveryError msg).
Proof.
  unfold send. destruct (network w) as [|[err|] net]; simpl; eauto.
Qed.

Lemma send_reliable p w : reliable (network w) -> fst (send p w) = Return tt.
Proof.
  unfold send, reliable. intros H.
  destruct (network w) as [|[err|] net]; try reflexivity.
  inversion H; discriminate.
Qed.

Lemma catch_reliable (c : M unit) w :
  fst (c w) = Return tt \/ reliable (network (snd (c w))) ->
  fst (try_catch c reportError w) = Return tt.
Proof.
  intros H. unfold try_catch.
  destruct (c w) as [[[]|e] w1]; simpl in *; [reflexivity|].
  destruct H as [H | Hrel]; [discriminate|].
  now apply send_reliable.
Qed.

Lemma command_reliable toLowerCase message content kind w :
  reliable (network w) ->
  fst (runCommand toLowerCase message content kind w) = Return tt
  \/ reliable (network (snd (runCommand toLowerCase message content kind w))).
Proof.
  intros Hrel. destruct kind; unfold runCommand, bind.
  - left. now apply send_reliable.
  - left. unfold findAll. now apply send_reliable.
  - destruct (firstQuoted_cases content w) as [[_ ->] | (t & l & Ht & _ & ->)];
      [now right|].
    destruct (addResponse_cases toLowerCase message t w)
      as [[_ ->] | [(_ & _ & ->) | (r & ty & Hno & _ & ->)]]; [now right..|].
    left. now apply send_reliable.
  - destruct (firstQuoted_cases content w) as [[_ ->] | (t & l & Ht & _ & ->)];
      [now right|].
    rewrite removeResponse_cases.
    destruct (_ =? 0); [now right|]. left. now apply send_reliable.
  - destruct (firstQuoted_cases content w) as [[_ ->] | (t & l & Ht & _ & ->)];
      [now right|].
    destruct (editResponse_cases toLowerCase message t w)
      as [[_ ->] | [(_ & _ & ->) | (r & ty & Hex & _ & ->)]]; [now right..|].
    left. now apply send_reliable.
  - left. now rewrite checkMessages_filter, forEach_deliver.
Qed.

(** X13. The listener lets no error of a command escape: it ends
    normally or with the rejection of a delivery, and it ends normally
    whenever the transport rejects no delivery. *)
Theorem listener_outcome (toLowerCase : jsstring -> jsstring)
    (message : Message) (w : World) :
  (fst (onMessageCreate toLowerCase message w) = Return tt
   \/ exists msg,
        fst (onMessageCreate toLowerCase message w) = Throw (DeliveryError msg))
  /\ (reliable (network w) ->
      fst (onMessageCreate toLowerCase message w) = Return tt).
Proof.
  destruct (author_bot message) eqn:Hbot.
  - unfold onMessageCreate. rewrite Hbot. simpl. auto.
  - rewrite (onMessageCreate_dispatch toLowerCase message Hbot).
    unfold bind, log. split.
    + unfold try_catch.
      match goal with
      | |- context [runCommand ?a ?b ?c ?k ?w0] =>
          destruct (runCommand a b c k w0) as [[[]|e] w1]
      end; [now left|].
      apply send_outcome.
    + intros Hrel. apply catch_reliable. now apply command_reliable.
Qed.

Lemma listener_outcome_witness :
  reliable (network (worldOf []))
  /\ fst (onMessageCreate asciiLower (userMessage (lit "--remove")) (worldOf []))
     = Return tt.
Proof.
  split; [constructor|].
  apply (proj2 (listener_outcome asciiLower (userMessage (lit "--remove")) (worldOf []))).
  constructor.
Defined.

(** ** Sequences of messages *)

(** X14. Unique triggers stay unique, whatever messages arrive: no
    sequence of messages, handled one after the other, makes two stored
    documents share a trigger. *)
Theorem onMessages_unique_triggers (toLowerCase : jsstring -> jsstring)
    (messages : list Message) (w : World) :
  NoDup (List.map trigger (responses w)) ->
  NoDup (List.map trigger (responses (onMessages toLowerCase messages w))).
Proof.
  revert w. induction messages as [|message rest IH]; intros w Hw; simpl.
  - exact Hw.
  - apply IH. now apply onMessageCreate_unique.
Qed.

Lemma onMessages_unique_triggers_witness :
  NoDup (List.map trigger
           (responses
              (onMessages asciiLower
                 [userMessage (lit "--add " ++ quoted "hello" ++ lit " " ++ quoted "hi");
                  userMessage (lit "--add " ++ quoted "HELLO" ++ lit " " ++ quoted "hey")]
                 (worldOf [])))).
Proof.
  apply onMessages_unique_triggers. constructor.
Defined.

(** X15. Provided lower-casing empties no string, a collection without
    empty trigger has none after any sequence of messages. *)
Theorem onMessages_nonempty_triggers (toLowerCase : jsstring -> jsstring)
    (messages : list Message) (w : World) :
  (forall s, toLowerCase s = [] -> s = []) ->
  Forall (fun d => trigger d <> []) (responses w) ->
  Forall (fun d => trigger d <> [])
    (responses (onMessages toLowerCase messages w)).
Proof.
  intros Hlow. revert w. induction messages as [|message rest IH]; intros w Hw; simpl.
  - exact Hw.
  - apply IH. rewrite Forall_forall in *. intros d Hd.
    destruct (StoreStep_nonempty toLowerCase _ _ Hlow
                (onMessageCreate_store toLowerCase message w) d Hd); auto.
Qed.

Lemma onMessages_nonempty_triggers_witness :
  Forall (fun d => trigger d <> [])
    (responses
       (onMessages asciiLower
          [userMessage (lit "--add " ++ quoted " " ++ lit " " ++ quoted "hi");
           userMessage (lit "--add " ++ quoted "a" ++ lit " " ++ quoted "hi")]
          (worldOf []))).
Proof.
  apply onMessages_nonempty_triggers; [exact asciiLower_nonempty | constructor].
Defined.

(** ** Commands and the matcher *)

(** X16. After a successful add, every message whose lower-cased text
    contains the lower-cased trigger is matched by the new document, after
    the documents that matched before; it carries the response and the
    type the add took from the message. *)
Theorem add_then_match (toLowerCase : jsstring -> jsstring)
    (message : Message) (t : jsstring) (w : World) (result : jsstring) (w1 : World)
    (content : jsstring) :
  addResponse toLowerCase message t w = (Return result, w1) ->
  Substring (toLowerCase t) (toLowerCase content) ->
  exists before d,
    checkMessages toLowerCase content w = (Return before, w)
    /\ checkMessages toLowerCase content w1 = (Return (before ++ [d]), w1)
    /\ trigger d = toLowerCase t
    /\ fst (newResponse message w) = Return (response d, type d)
    /\ createdAt d = clock w /\ updatedAt d = None.
Proof.
  intros Hadd Hsub.
  destruct (addResponse_cases toLowerCase message t w)
    as [[_ E] | [(_ & _ & E) | (r & ty & Hno & Hr & E)]];
    rewrite E in Hadd; try discriminate.
  injection Hadd as _ <-.
  exists (filter (fun doc => includes (toLowerCase content) (trigger doc)) (responses w)),
    (mkDoc (toLowerCase t) r ty (clock w) None).
  split; [apply checkMessages_filter|]. split.
  - rewrite checkMessages_filter. simpl. rewrite filter_app. simpl.
    apply includes_spec in Hsub. now rewrite Hsub.
  - simpl. rewrite Hr. auto.
Qed.

Lemma add_then_match_witness :
  exists w1,
    snd (addResponse asciiLower
           (userMessage (lit "--add " ++ quoted "Hello" ++ lit " " ++ quoted "hi there"))
           (lit "Hello") (worldOf [])) = w1
    /\ checkMessages asciiLower (lit "well HELLO friend") w1
       = (Return [mkDoc (lit "hello") (lit "hi there") text 1000 None], w1).
Proof.
  destruct (add_then_match asciiLower
              (userMessage (lit "--add " ++ quoted "Hello" ++ lit " " ++ quoted "hi there"))
              (lit "Hello") (worldOf []) (added (lit "Hello") text)
              (worldOf [mkDoc (lit "hello") (lit "hi there") text 1000 None])
              (lit "well HELLO friend") eq_refl)
    as (before & d & Hb & Hm & _).
  - exists (lit "well "), (lit " friend"). reflexivity.
  - eexists. split; [reflexivity|]. reflexivity.
Defined.

(** X17. After a successful remove on a collection with unique triggers,
    no message is matched by a document with the removed trigger, and
    every match was a match before. *)
Theorem remove_then_no_match (toLowerCase : jsstring -> jsstring)
    (t : jsstring) (w : World) (result : jsstring) (w1 : World) (content : jsstring) :
  NoDup (List.map trigger (responses w)) ->
  removeResponse toLowerCase t w = (Return result, w1) ->
  exists before after,
    checkMessages toLowerCase content w = (Return before, w)
    /\ checkMessages toLowerCase content w1 = (Return after, w1)
    /\ (forall d, In d after -> In d before /\ trigger d <> toLowerCase t).
Proof.
  intros Hnd Hrem. rewrite removeResponse_cases in Hrem.
  destruct (Mongo.findOne (toLowerCase t) (responses w)) as [d0|] eqn:Ef.
  - assert (Hex : exists d, In d (responses w) /\ trigger d = toLowerCase t).
    { exists d0. now apply findOne_Some. }
    destruct (first_with_trigger _ _ Hex) as (l1 & d & l2 & Hc & Hd & Hl1).
    rewrite Hc, (deleteOne_first _ _ _ _ Hd Hl1) in Hrem. simpl in Hrem.
    injection Hrem as _ <-.
    eexists _, _. split; [apply checkMessages_filter|].
    split; [apply checkMessages_filter|].
    simpl. intros d' Hd'. apply filter_In in Hd' as [Hin Hinc]. split.
    + apply filter_In. split; [|exact Hinc]. rewrite Hc.
      apply in_app_or in Hin as [Hin | Hin]; apply in_or_app; [left|right; right]; exact Hin.
    + rewrite <- Hd. rewrite Hc in Hnd. now apply (unique_trigger_removed l1 d l2).
  - rewrite findOne_None in Ef. rewrite (deleteOne_none _ _ Ef) in Hrem.
    simpl in Hrem. discriminate.
Qed.

Lemma remove_then_no_match_witness :
  checkMessages asciiLower (lit "hello and bye")
    (snd (removeResponse asciiLower (lit "Hello")
            (worldOf [mkDoc (lit "hello") (lit "hi there") text 1 None;
                      mkDoc (lit "bye") (lit "see you") text 2 None])))
  = (Return [mkDoc (lit "bye") (lit "see you") text 2 None],
     worldOf [mkDoc (lit "bye") (lit "see you") text 2 None]).
Proof.
  destruct (remove_then_no_match asciiLower (lit "Hello")
              (worldOf [mkDoc (lit "hello") (lit "hi there") text 1 None;
                        mkDoc (lit "bye") (lit "see you") text 2 None])
              (removed (lit "Hello"))
              (worldOf [mkDoc (lit "bye") (lit "see you") text 2 None])
              (lit "hello and bye"))
    as (before & after & _ & Ha & _).
  - vm_compute. repeat constructor; simpl; intuition discriminate.
  - reflexivity.
  - vm_compute in Ha. injection Ha as <-. reflexivity.
Defined.
